(** * iotex-election: the result calculator and the ordered commit of the
      sync engine, embedded from [types/resultcalculator.go],
      the committee code and [util/util.go]. *)

From Stdlib Require Import ZArith Lia List Permutation.
From Stdlib Require OrderedTypeEx.
From Stdlib.Strings Require Import Ascii String Byte.
From stdpp Require Import gmap strings list fin_maps sorting.

Local Open Scope Z_scope.

(** ** Machine integers and byte strings *)

Definition wrap64 (z : Z) : Z := z mod 2 ^ 64.

Definition byte_to_Z (b : byte) : Z := Z.of_N (Byte.to_N b).

Definition byte_of_Z (z : Z) : byte :=
  match Byte.of_N (Z.to_N (z mod 256)) with
  | Some b => b
  | None => x00
  end.

(** [binary.LittleEndian.PutUint64] into a fresh 8-byte slice. *)
Definition le_put64 (u : Z) : list byte :=
  map (fun i : nat => byte_of_Z (Z.land (Z.shiftr u (8 * Z.of_nat i)) 255)) (seq 0 8).

(** Little-endian value of a byte sequence, least significant byte first. *)
Fixpoint le_value (b : list byte) : Z :=
  match b with
  | [] => 0
  | x :: r => Z.lor (byte_to_Z x) (Z.shiftl (le_value r) 8)
  end.

(** [binary.LittleEndian.Uint64]: reads [b[0..7]]; a slice shorter than
    eight bytes fails the bounds check and panics ([None]). *)
Definition le_uint64 (b : list byte) : option Z :=
  if (length b <? 8)%nat then None else Some (le_value (take 8 b)).

Module util.

(** util.go: [Uint64ToBytes]. *)
Definition Uint64ToBytes (u : Z) : list byte := le_put64 u.

(** util.go: [BytesToUint64]. *)
Definition BytesToUint64 (b : list byte) : option Z := le_uint64 b.

(** util.go: [IsAllZeros]. *)
Fixpoint IsAllZeros (b : list byte) : bool :=
  match b with
  | [] => true
  | v :: r => if Byte.eqb v x00 then IsAllZeros r else false
  end.

End util.

(** ** encoding/hex *)

Definition hextable : string := "0123456789abcdef".

Definition hexdigit (n : Z) : ascii :=
  match String.get (Z.to_nat n) hextable with
  | Some c => c
  | None => "0"%char
  end.

(** [hex.EncodeToString]: two lowercase digits per byte, high nibble first. *)
Fixpoint EncodeToString (src : list byte) : string :=
  match src with
  | [] => EmptyString
  | b :: r =>
      String (hexdigit (Z.shiftr (byte_to_Z b) 4))
        (String (hexdigit (Z.land (byte_to_Z b) 15)) (EncodeToString r))
  end.

(** The conversion [[]byte(s)] of a Go string. *)
Definition bytes_of_string (s : string) : list byte := list_byte_of_string s.

(** ** golang.org/x/crypto/blake2b, unkeyed, after RFC 7693 *)

Module blake2b.

Definition IV : list Z :=
  [ 0x6a09e667f3bcc908; 0xbb67ae8584caa73b; 0x3c6ef372fe94f82b; 0xa54ff53a5f1d36f1;
    0x510e527fade682d1; 0x9b05688c2b3e6c1f; 0x1f83d9abfb41bd6b; 0x5be0cd19137e2179 ].

Definition SIGMA : list (list nat) :=
  [ [ 0; 1; 2; 3; 4; 5; 6; 7; 8; 9; 10; 11; 12; 13; 14; 15 ];
    [ 14; 10; 4; 8; 9; 15; 13; 6; 1; 12; 0; 2; 11; 7; 5; 3 ];
    [ 11; 8; 12; 0; 5; 2; 15; 13; 10; 14; 3; 6; 7; 1; 9; 4 ];
    [ 7; 9; 3; 1; 13; 12; 11; 14; 2; 6; 5; 10; 4; 0; 15; 8 ];
    [ 9; 0; 5; 7; 2; 4; 10; 15; 14; 1; 11; 12; 6; 8; 3; 13 ];
    [ 2; 12; 6; 10; 0; 11; 8; 3; 4; 13; 7; 5; 15; 14; 1; 9 ];
    [ 12; 5; 1; 15; 14; 13; 4; 10; 0; 7; 6; 3; 9; 2; 8; 11 ];
    [ 13; 11; 7; 14; 12; 1; 3; 9; 5; 0; 15; 4; 8; 6; 2; 10 ];
    [ 6; 15; 14; 9; 11; 3; 0; 8; 12; 2; 13; 7; 1; 4; 10; 5 ];
    [ 10; 2; 8; 4; 7; 6; 1; 5; 15; 11; 9; 14; 3; 12; 13; 0 ] ]%nat.

Definition word (v : list Z) (i : nat) : Z := nth i v 0.

Definition rotr64 (x n : Z) : Z :=
  wrap64 (Z.lor (Z.shiftr x n) (Z.shiftl x (64 - n))).

(** The mixing function G on the working vector. *)
Definition G (v : list Z) (a b c d : nat) (x y : Z) : list Z :=
  let va := wrap64 (word v a + word v b + x) in
  let vd := rotr64 (Z.lxor (word v d) va) 32 in
  let vc := wrap64 (word v c + vd) in
  let vb := rotr64 (Z.lxor (word v b) vc) 24 in
  let va := wrap64 (va + vb + y) in
  let vd := rotr64 (Z.lxor vd va) 16 in
  let vc := wrap64 (vc + vd) in
  let vb := rotr64 (Z.lxor vb vc) 63 in
  <[d:=vd]> (<[c:=vc]> (<[b:=vb]> (<[a:=va]> v))).

Definition round (m : list Z) (v : list Z) (r : nat) : list Z :=
  let s := nth (r mod 10) SIGMA [] in
  let mw (i : nat) := word m (nth i s O) in
  let v := G v 0 4 8 12 (mw 0%nat) (mw 1%nat) in
  let v := G v 1 5 9 13 (mw 2%nat) (mw 3%nat) in
  let v := G v 2 6 10 14 (mw 4%nat) (mw 5%nat) in
  let v := G v 3 7 11 15 (mw 6%nat) (mw 7%nat) in
  let v := G v 0 5 10 15 (mw 8%nat) (mw 9%nat) in
  let v := G v 1 6 11 12 (mw 10%nat) (mw 11%nat) in
  let v := G v 2 7 8 13 (mw 12%nat) (mw 13%nat) in
  G v 3 4 9 14 (mw 14%nat) (mw 15%nat).

(** A block of up to 128 bytes as sixteen little-endian words, the
    missing bytes read as zero. *)
Definition block_words (blk : list byte) : list Z :=
  map (fun i : nat => le_value (take 8 (drop (8 * i) blk))) (seq 0 16).

(** The compression function F. *)
Definition compress (h : list Z) (blk : list byte) (t : Z) (final : bool) : list Z :=
  let m := block_words blk in
  let v := h ++ IV in
  let v := <[12%nat := Z.lxor (word v 12) (wrap64 t)]> v in
  let v := <[13%nat := Z.lxor (word v 13) (wrap64 (Z.shiftr t 64))]> v in
  let v := if final then <[14%nat := Z.lxor (word v 14) (2 ^ 64 - 1)]> v else v in
  let v := fold_left (round m) (seq 0 12) v in
  map (fun i : nat => Z.lxor (Z.lxor (word h i) (word v i)) (word v (i + 8))) (seq 0 8).

(** Absorbs the message block by block; the last block, which may be
    full, is compressed with the finalisation flag. *)
Fixpoint absorb (fuel : nat) (h : list Z) (t : Z) (msg : list byte) : list Z :=
  match fuel with
  | O => h
  | S fuel' =>
      if (length msg <=? 128)%nat
      then compress h msg (t + Z.of_nat (length msg)) true
      else absorb fuel' (compress h (take 128 msg) (t + 128) false) (t + 128)
             (drop 128 msg)
  end.

Definition digest (nn : nat) (msg : list byte) : list byte :=
  let h0 := <[0%nat := Z.lxor (word IV 0) (Z.lxor 0x01010000 (Z.of_nat nn))]> IV in
  take nn (concat (map le_put64 (absorb (S (length msg)) h0 0 msg))).

(** [blake2b.Sum256]. *)
Definition Sum256 (data : list byte) : list byte := digest 32 data.

End blake2b.

(** ** package types: the result calculator *)

Module types.

(** Go's [error] values, kept as their messages. *)
Definition error : Type := string.

(** [time.Time] as nanoseconds since the Unix epoch (an instant; the
    [UTC()] normalisation changes the location, not the instant), and
    [time.Duration] as signed nanoseconds. *)
Definition Time : Type := Z.
Definition Duration : Type := Z.

(** [Time.Unix]: whole seconds since the epoch. *)
Definition Unix (t : Time) : Z := t / 1000000000.

(** Modelled from the spec: the [Registration] type is declared in another
    file of the package; section 3 lists its fields. *)
Record Registration := mkRegistration {
  rName : list byte;
  rAddress : list byte;
  rOperatorAddress : list byte;
  rRewardAddress : list byte;
  rSelfStakingWeight : Z
}.

(** Modelled from the spec: the [Bucket] type is declared in another file of
    the package; section 3 lists its fields. A missing candidate name is the
    nil slice. *)
Record Bucket := mkBucket {
  startTime : Time;
  duration : Duration;
  amount : Z;
  decay : bool;
  voter : list byte;
  candidate : option (list byte)
}.

(** Modelled from the spec: the [Candidate] aggregate of section 3. *)
Record Candidate := mkCandidate {
  name : list byte;
  address : list byte;
  operatorAddress : list byte;
  rewardAddress : list byte;
  selfStakingWeight : Z;
  score : Z;
  selfStakingTokens : Z
}.

(** Modelled from the spec: a [Vote] is a bucket with its computed weighted
    score. *)
Record Vote := mkVote {
  bucket : Bucket;
  weighted : Z
}.

(** Modelled from the spec: [NewCandidate] is declared in another file of
    the package; it copies the registration and starts from the given score
    and self-staking tokens. *)
Definition NewCandidate (r : Registration) (sc tokens : Z) : Candidate :=
  {| name := rName r; address := rAddress r;
     operatorAddress := rOperatorAddress r; rewardAddress := rRewardAddress r;
     selfStakingWeight := rSelfStakingWeight r;
     score := sc; selfStakingTokens := tokens |}.

(** Modelled from the spec: [addScore] is declared in another file of the
    package and can fail; section 3 keeps the score non-negative and non-
    decreasing, so a negative increment is the failure. *)
Definition addScore (c : Candidate) (s : Z) : error + Candidate :=
  if s <? 0 then inl "score cannot be negative"%string
  else inr {| name := name c; address := address c;
              operatorAddress := operatorAddress c; rewardAddress := rewardAddress c;
              selfStakingWeight := selfStakingWeight c;
              score := score c + s; selfStakingTokens := selfStakingTokens c |}.

(** Modelled from the spec: [addSelfStakingTokens], as [addScore]. *)
Definition addSelfStakingTokens (c : Candidate) (a : Z) : error + Candidate :=
  if a <? 0 then inl "self staking tokens cannot be negative"%string
  else inr {| name := name c; address := address c;
              operatorAddress := operatorAddress c; rewardAddress := rewardAddress c;
              selfStakingWeight := selfStakingWeight c;
              score := score c; selfStakingTokens := selfStakingTokens c + a |}.

(** Modelled from the spec: [NewVote] is declared in another file of the
    package and can fail; a vote carries the bucket and a non-negative
    weighted score. *)
Definition NewVote (b : Bucket) (s : Z) : error + Vote :=
  if s <? 0 then inl "weighted votes cannot be negative"%string
  else inr {| bucket := b; weighted := s |}.

Record item := mkItem {
  Key : string;
  Value : Z;
  Priority : Z
}.

(** [strings.Compare]: bytewise lexicographic, as -1, 0 or +1. *)
Definition strings_Compare (a b : string) : Z :=
  match String.compare a b with
  | Lt => -1
  | Eq => 0
  | Gt => 1
  end.

(** [itemList.Less], on the two elements it indexes. *)
Definition Less (pi pj : item) : bool :=
  match Value pi ?= Value pj with
  | Lt => false
  | Gt => true
  | Eq =>
      if Priority pi <? Priority pj then false
      else if Priority pi >? Priority pj then true
      else strings_Compare (Key pi) (Key pj) >? 0
  end.

(** [sort.Stable]: an element goes before the first one that is not
    [less] than it, so that elements neither of which is less than the
    other keep their order. *)
Section Stable.
Context {A : Type} (less : A -> A -> bool).

Fixpoint insert_stable (x : A) (l : list A) : list A :=
  match l with
  | [] => [x]
  | y :: l' => if less y x then y :: insert_stable x l' else x :: y :: l'
  end.

Definition Stable (l : list A) : list A := foldr insert_stable [] l.
End Stable.

Definition candidateZero : string := "000000000000000000000000".

Record ResultCalculator := mkResultCalculator {
  calcScore : Bucket -> Time -> Z;
  candidateFilter : Candidate -> bool;
  bucketFilter : Bucket -> bool;
  mintTime : Time;
  candidates : gmap string Candidate;
  candidateVotes : gmap string (list Vote);
  totalVotes : Z;
  totalVotedStakes : Z;
  calculated : bool;
  skipManified : bool
}.

Record ElectionResult := mkElectionResult {
  resMintTime : Time;
  delegates : list Candidate;
  votes : gmap string (list Vote);
  resTotalVotedStakes : Z;
  resTotalVotes : Z
}.

Definition NewResultCalculator (mint : Time) (skip : bool)
    (bf : Bucket -> bool) (cs : Bucket -> Time -> Z) (cf : Candidate -> bool)
    : ResultCalculator :=
  {| calcScore := cs; candidateFilter := cf; bucketFilter := bf;
     mintTime := mint; candidates := ∅; candidateVotes := ∅;
     totalVotedStakes := 0; totalVotes := 0;
     calculated := false; skipManified := skip |}.

(** [calculator.hex]. *)
Definition hex (nm : list byte) : string := EncodeToString nm.

Definition register (calc : ResultCalculator) (nm : string) (c : Candidate)
    : ResultCalculator :=
  {| calcScore := calcScore calc; candidateFilter := candidateFilter calc;
     bucketFilter := bucketFilter calc; mintTime := mintTime calc;
     candidates := <[nm := c]> (candidates calc);
     candidateVotes := <[nm := []]> (candidateVotes calc);
     totalVotedStakes := totalVotedStakes calc; totalVotes := totalVotes calc;
     calculated := calculated calc; skipManified := skipManified calc |}.

(** [errors.Errorf("Duplicate candidate %s", name)]. *)
Definition duplicateError (nm : string) : error := ("Duplicate candidate " ++ nm)%string.

(** The loop of [AddRegistrations]: the map is updated in place, so the
    entries made before an early return stay. *)
Fixpoint addRegistrations_loop (calc : ResultCalculator) (l : list Registration)
    : option error * ResultCalculator :=
  match l with
  | [] => (None, calc)
  | c :: rest =>
      let nm := hex (rName c) in
      match candidates calc !! nm with
      | Some _ => (Some (duplicateError nm), calc)
      | None =>
          if (rSelfStakingWeight c >? 1) && skipManified calc
          then addRegistrations_loop calc rest
          else addRegistrations_loop (register calc nm (NewCandidate c 0 0)) rest
      end
  end.

Definition AddRegistrations (calc : ResultCalculator) (l : list Registration)
    : option error * ResultCalculator :=
  if calculated calc then (Some "Cannot modify a calculated result"%string, calc)
  else if totalVotes calc >? 0
  then (Some "Candidates should be added before any votes"%string, calc)
  else addRegistrations_loop calc l.

Definition with_candidate (calc : ResultCalculator) (nm : string) (c : Candidate)
    : ResultCalculator :=
  {| calcScore := calcScore calc; candidateFilter := candidateFilter calc;
     bucketFilter := bucketFilter calc; mintTime := mintTime calc;
     candidates := <[nm := c]> (candidates calc);
     candidateVotes := candidateVotes calc;
     totalVotedStakes := totalVotedStakes calc; totalVotes := totalVotes calc;
     calculated := calculated calc; skipManified := skipManified calc |}.

Definition append_vote (calc : ResultCalculator) (nm : string) (v : Vote)
    : ResultCalculator :=
  {| calcScore := calcScore calc; candidateFilter := candidateFilter calc;
     bucketFilter := bucketFilter calc; mintTime := mintTime calc;
     candidates := candidates calc;
     candidateVotes :=
       <[nm := default [] (candidateVotes calc !! nm) ++ [v]]> (candidateVotes calc);
     totalVotedStakes := totalVotedStakes calc; totalVotes := totalVotes calc;
     calculated := calculated calc; skipManified := skipManified calc |}.

Definition add_totals (calc : ResultCalculator) (amt sc : Z) : ResultCalculator :=
  {| calcScore := calcScore calc; candidateFilter := candidateFilter calc;
     bucketFilter := bucketFilter calc; mintTime := mintTime calc;
     candidates := candidates calc; candidateVotes := candidateVotes calc;
     totalVotedStakes := totalVotedStakes calc + amt;
     totalVotes := totalVotes calc + sc;
     calculated := calculated calc; skipManified := skipManified calc |}.

(** [bytes.Equal]. *)
Fixpoint bytes_Equal (a b : list byte) : bool :=
  match a, b with
  | [], [] => true
  | x :: a', y :: b' => Byte.eqb x y && bytes_Equal a' b'
  | _, _ => false
  end.

(** The self-vote branch of [AddBuckets]: amount and score are scaled in
    place by the candidate's weight, and the scaled amount goes into the
    candidate's self-staking tokens. *)
Definition selfVote (cand : Candidate) (b : Bucket) (amt sc : Z)
    : error + (Z * Z * Candidate) :=
  if bytes_Equal (voter b) (address cand)
  then
    let w := selfStakingWeight cand in
    match addSelfStakingTokens cand (amt * w) with
    | inl e => inl e
    | inr cand' => inr (amt * w, sc * w, cand')
    end
  else inr (amt, sc, cand).

(** One iteration of the loop of [AddBuckets]: [inl] is the early
    [return err], with the calculator as the iteration left it (the
    candidate is a pointer into the map, so what it accumulated before
    the error stays).  [bucket.Amount()] is read as a copy: scaling it
    leaves the bucket as it was. *)
Definition addBucket (calc : ResultCalculator) (b : Bucket)
    : error * ResultCalculator + ResultCalculator :=
  if bucketFilter calc b then inr calc
  else
    match candidate b with
    | None => inr calc
    | Some nm =>
        let nameHex := hex nm in
        if strings_Compare nameHex candidateZero =? 0 then inr calc
        else
          let amt := amount b in
          let sc := calcScore calc b (mintTime calc) in
          match candidates calc !! nameHex with
          | Some cand =>
              match selfVote cand b amt sc with
              | inl e => inl (e, calc)
              | inr (amt, sc, cand) =>
                  let calc := with_candidate calc nameHex cand in
                  match NewVote b sc with
                  | inl e => inl (e, calc)
                  | inr cVote =>
                      match addScore cand sc with
                      | inl e => inl (e, calc)
                      | inr cand' =>
                          inr (add_totals
                                 (append_vote (with_candidate calc nameHex cand')
                                    nameHex cVote) amt sc)
                      end
                  end
              end
          | None => inr (add_totals calc amt sc)
          end
    end.

Fixpoint addBuckets_loop (calc : ResultCalculator) (l : list Bucket)
    : option error * ResultCalculator :=
  match l with
  | [] => (None, calc)
  | b :: rest =>
      match addBucket calc b with
      | inl (e, calc') => (Some e, calc')
      | inr calc' => addBuckets_loop calc' rest
      end
  end.

Definition AddBuckets (calc : ResultCalculator) (l : list Bucket)
    : option error * ResultCalculator :=
  if calculated calc then (Some "Cannot modify a calculated result"%string, calc)
  else addBuckets_loop calc l.

(** The order in which a [range] over the candidate map visits its
    entries.  Go leaves it unspecified: any function listing each entry
    of the map once is an admissible order. *)
Definition range_order : Type := gmap string Candidate -> list (string * Candidate).

Definition admissible (order : range_order) : Prop :=
  forall m, order m ≡ₚ map_to_list m.

(** The tie-breaking priority [filterAndSortCandidates] gives to the map
    key [nm]: the first eight bytes of BLAKE2b-256 of the key's bytes
    followed by [tsBytes].  [Sum256] returns 32 bytes, so the read of
    eight bytes never goes out of range. *)
Definition priorityOf (nm : string) (tsBytes : list byte) : Z :=
  default 0
    (util.BytesToUint64 (take 8 (blake2b.Sum256 (bytes_of_string nm ++ tsBytes)))).

Definition timestampBytes (mint : Time) : list byte :=
  util.Uint64ToBytes (wrap64 (Unix mint)).

Definition itemOf (tsBytes : list byte) (e : string * Candidate) : item :=
  {| Key := e.1; Value := score e.2; Priority := priorityOf e.1 tsBytes |}.

Definition qualifies (calc : ResultCalculator) (e : string * Candidate) : bool :=
  negb (candidateFilter calc e.2).

(** The slice [p[:num]] that the first loop of [filterAndSortCandidates]
    fills, in the order of the map traversal. *)
Definition qualifierItems (calc : ResultCalculator) (order : range_order) : list item :=
  map (itemOf (timestampBytes (mintTime calc)))
    (List.filter (qualifies calc) (order (candidates calc))).

(** The same slice after [sort.Stable]. *)
Definition ranking (calc : ResultCalculator) (order : range_order) : list item :=
  Stable Less (qualifierItems calc order).

Definition filterAndSortCandidates (calc : ResultCalculator) (order : range_order)
    : list string :=
  map Key (ranking calc order).

Definition finalize (calc : ResultCalculator) : ResultCalculator :=
  {| calcScore := calcScore calc; candidateFilter := candidateFilter calc;
     bucketFilter := bucketFilter calc; mintTime := mintTime calc;
     candidates := candidates calc; candidateVotes := candidateVotes calc;
     totalVotedStakes := totalVotedStakes calc; totalVotes := totalVotes calc;
     calculated := true; skipManified := skipManified calc |}.

(** [Calculate].  Every qualifier is a key of the candidate map, so the
    lookups that fill [delegates] all succeed ([delegates_length]
    below); a missing vote list would read as the nil slice. *)
Definition Calculate (calc : ResultCalculator) (order : range_order)
    : option ElectionResult * option error * ResultCalculator :=
  if calculated calc
  then (None, Some "Cannot modify a calculated result"%string, calc)
  else
    let qualifiers := filterAndSortCandidates calc order in
    let cands := omap (fun nm => candidates calc !! nm) qualifiers in
    let vs :=
      fold_left (fun (m : gmap string (list Vote)) nm =>
                   <[nm := default [] (candidateVotes calc !! nm)]> m)
        qualifiers ∅ in
    (Some {| resMintTime := mintTime calc; delegates := cands; votes := vs;
             resTotalVotedStakes := totalVotedStakes calc;
             resTotalVotes := totalVotes calc |},
     None, finalize calc).

(** The calculators a program can hold: a new one, changed by the two
    mutators only. *)
Inductive reachable : ResultCalculator -> Prop :=
| reach_new mint skip bf cs cf :
    reachable (NewResultCalculator mint skip bf cs cf)
| reach_registrations calc l :
    reachable calc -> reachable (AddRegistrations calc l).2
| reach_buckets calc l :
    reachable calc -> reachable (AddBuckets calc l).2.

(** The pipeline of [fetchResultByHeight] once the chain data is at hand:
    registrations, then buckets, then the calculation. *)
Definition election (mint : Time) (skip : bool) (bf : Bucket -> bool)
    (cs : Bucket -> Time -> Z) (cf : Candidate -> bool)
    (regs : list Registration) (buckets : list Bucket) (order : range_order)
    : option ElectionResult * option error :=
  let calc := NewResultCalculator mint skip bf cs cf in
  match AddRegistrations calc regs with
  | (Some e, _) => (None, Some e)
  | (None, calc) =>
      match AddBuckets calc buckets with
      | (Some e, _) => (None, Some e)
      | (None, calc) => (Calculate calc order).1
      end
  end.

End types.

(** ** package committee: weighting, retry and the ordered commit *)

Module committee.
Import types.

(** *** math/big floats, as far as [calcWeightedVotes] uses them *)

(** A finite binary floating-point value [fmant * 2 ^ fexp]; a [float64]
    is one with a mantissa of at most 53 bits. *)
Record float64 := mkFloat64 { fmant : Z; fexp : Z }.

Definition float64_one : float64 := {| fmant := 1; fexp := 0 |}.

(** A [big.Float]: precision in bits and the value [mant * 2 ^ expo]. *)
Record Float := mkFloat { prec : Z; mant : Z; expo : Z }.

(** [big.Int.BitLen]: the length of the absolute value in bits. *)
Definition BitLen (x : Z) : Z :=
  if x =? 0 then 0 else Z.log2 (Z.abs x) + 1.

(** [new(big.Float).SetInt(x)]: the receiver's precision is 0, so it
    becomes the larger of [x.BitLen()] and 64, and the value is exact. *)
Definition SetInt (x : Z) : Float :=
  {| prec := Z.max (BitLen x) 64; mant := x; expo := 0 |}.

(** [big.NewFloat(f)]: precision 53, the value of [f]. *)
Definition NewFloat (f : float64) : Float :=
  {| prec := 53; mant := fmant f; expo := fexp f |}.

(** Rounds [m * 2 ^ e] to [p] bits of mantissa, to nearest, ties to even
    (the rounding mode of a zero-value [big.Float]). *)
Definition roundTo (p m e : Z) : Z * Z :=
  let n := BitLen m in
  if n <=? p then (m, e)
  else
    let k := n - p in
    let a := Z.abs m in
    let q := Z.shiftr a k in
    let r := Z.land a (2 ^ k - 1) in
    let half := 2 ^ (k - 1) in
    let q' :=
      if r >? half then q + 1
      else if r =? half then (if Z.even q then q else q + 1)
      else q in
    (Z.sgn m * q', e + k).

(** [z.Mul(x, y)] for a receiver [z] whose precision is already set: the
    exact product rounded to [z]'s precision. *)
Definition Mul (zprec : Z) (x y : Float) : Float :=
  let '(m, e) := roundTo zprec (mant x * mant y) (expo x + expo y) in
  {| prec := zprec; mant := m; expo := e |}.

(** [x.Int(nil)]: truncation towards zero. *)
Definition Int (x : Float) : Z :=
  if 0 <=? expo x then mant x * 2 ^ expo x
  else Z.quot (mant x) (2 ^ (- expo x)).

(** *** votes *)

Definition StartTime (v : Vote) : Time := startTime (bucket v).
Definition Amount (v : Vote) : Z := amount (bucket v).

(** Modelled from the spec: [RemainingTime] is declared in another file of
    the package; section 3 gives [remainingTime(now) = max(0, startTime +
    duration - now)]. *)
Definition RemainingTime (v : Vote) (now : Time) : Duration :=
  Z.max 0 (startTime (bucket v) + duration (bucket v) - now).

(** [Time.Before]. *)
Definition Before (t u : Time) : bool := t <? u.

Section Weighting.
(** The [float64] that
    [1 + math.Log(math.Ceil(remainingTime/86400)) / math.Log(1.2) / 100]
    evaluates to, for a remaining time with a positive number of
    seconds.  The library logarithm is taken as given. *)
Variable lockWeight : Duration -> float64.

(** [Duration.Seconds()] is positive exactly when the duration is. *)
Definition calcWeightedVotes (v : Vote) (now : Time) : Z :=
  if Before now (StartTime v) then 0
  else
    let remainingTime := RemainingTime v now in
    let weight := if remainingTime >? 0 then lockWeight remainingTime
                  else float64_one in
    let amount := SetInt (Amount v) in
    Int (Mul (prec amount) amount (NewFloat weight)).
End Weighting.

(** *** errors *)

Inductive error :=
| ErrorOf (msg : string)
| Wrapf (cause : error) (msg : string) (arg : option Z).

(** How a call ends: it returns (with an error or nil), the process is
    ended by [zap.L().Fatal], or a nil pointer is dereferenced. *)
Inductive outcome :=
| Returned (err : option error)
| Fatal (err : error)
| Panic.

(** *** height manager *)

(** Modelled from the spec: the height manager is declared in another file
    of the package; section 4.2 gives [add] and [validate]. *)
Record heightManager := mkHeightManager {
  heights : list Z;
  times : list Time
}.

Definition newHeightManager : heightManager := {| heights := []; times := [] |}.

Definition notAfterLast (x : Z) (l : list Z) : bool :=
  match last l with
  | Some y => x <=? y
  | None => false
  end.

Definition hm_validate (m : heightManager) (height : Z) (ts : Time) : option error :=
  if notAfterLast height (heights m) then Some (ErrorOf "invalid height")
  else if notAfterLast ts (times m) then Some (ErrorOf "invalid mint time")
  else None.

Definition hm_add (m : heightManager) (height : Z) (ts : Time)
    : error + heightManager :=
  match hm_validate m height ts with
  | Some e => inl e
  | None => inr {| heights := heights m ++ [height]; times := times m ++ [ts] |}
  end.

(** *** the engine *)

(** The collaborators the engine reaches only through their interfaces:
    the key-value store, the serialisation of results and the result
    cache. *)
Class Backend := {
  DB : Type;
  db_Put : DB -> list byte -> list byte -> option error * DB;
  NextHeightKey : list byte;
  Serialize : ElectionResult -> error + list byte;
  Cache : Type;
  cache_insert : Cache -> Z -> ElectionResult -> Cache
}.

Section Engine.
Context `{Backend}.

Record committee := mkCommittee {
  db : DB;
  retryLimit : Z;
  interval : Z;
  cache : Cache;
  heightMgr : heightManager;
  startHeight : Z;
  nextHeight : Z;
  currentHeight : Z;
  lastUpdateTimestamp : Z
}.

Definition set_db (ec : committee) (d : DB) : committee :=
  {| db := d; retryLimit := retryLimit ec; interval := interval ec;
     cache := cache ec; heightMgr := heightMgr ec;
     startHeight := startHeight ec; nextHeight := nextHeight ec;
     currentHeight := currentHeight ec;
     lastUpdateTimestamp := lastUpdateTimestamp ec |}.

Definition set_cache (ec : committee) (c : Cache) : committee :=
  {| db := db ec; retryLimit := retryLimit ec; interval := interval ec;
     cache := c; heightMgr := heightMgr ec;
     startHeight := startHeight ec; nextHeight := nextHeight ec;
     currentHeight := currentHeight ec;
     lastUpdateTimestamp := lastUpdateTimestamp ec |}.

Definition set_heightMgr (ec : committee) (m : heightManager) : committee :=
  {| db := db ec; retryLimit := retryLimit ec; interval := interval ec;
     cache := cache ec; heightMgr := m;
     startHeight := startHeight ec; nextHeight := nextHeight ec;
     currentHeight := currentHeight ec;
     lastUpdateTimestamp := lastUpdateTimestamp ec |}.

Definition set_nextHeight (ec : committee) (h : Z) : committee :=
  {| db := db ec; retryLimit := retryLimit ec; interval := interval ec;
     cache := cache ec; heightMgr := heightMgr ec;
     startHeight := startHeight ec; nextHeight := h;
     currentHeight := currentHeight ec;
     lastUpdateTimestamp := lastUpdateTimestamp ec |}.

Definition set_lastUpdateTimestamp (ec : committee) (t : Z) : committee :=
  {| db := db ec; retryLimit := retryLimit ec; interval := interval ec;
     cache := cache ec; heightMgr := heightMgr ec;
     startHeight := startHeight ec; nextHeight := nextHeight ec;
     currentHeight := currentHeight ec;
     lastUpdateTimestamp := t |}.

(** [dbKey]. *)
Definition dbKey (height : Z) : list byte := util.Uint64ToBytes height.

(** [storeResult]: what was written before a failing step stays. *)
Definition storeResult (ec : committee) (height : Z) (result : ElectionResult)
    : option error * committee :=
  match Serialize result with
  | inl e => (Some e, ec)
  | inr data =>
      match db_Put (db ec) (dbKey height) data with
      | (Some e, d) =>
          (Some (Wrapf e "failed to put election result into db" None), set_db ec d)
      | (None, d) =>
          let ec := set_db ec d in
          match db_Put (db ec) NextHeightKey (dbKey (wrap64 (height + interval ec))) with
          | (Some e, d) => (Some e, set_db ec d)
          | (None, d) =>
              let ec := set_db ec d in
              let ec := set_cache ec (cache_insert (cache ec) height result) in
              match hm_add (heightMgr ec) height (resMintTime result) with
              | inl e => (Some e, ec)
              | inr m => (None, set_heightMgr ec m)
              end
          end
      end
  end.

(** The heights of a batch in ascending order.  The keys of the result
    map are gathered in the order of a map traversal and sorted; the
    keys being distinct, the sorted slice does not depend on that
    order ([sortedHeights_order] below). *)
Definition sortedHeights (keys : list Z) : list Z := merge_sort Z.le keys.

(** [errs[height]] and [results[height]]: a missing key reads as nil. *)
Definition errAt (errs : gmap Z (option error)) (height : Z) : option error :=
  default None (errs !! height).

Definition resultAt (results : gmap Z (option ElectionResult)) (height : Z)
    : option ElectionResult :=
  default None (results !! height).

(** The loop of [storeInBatch] over the sorted heights.  [None] means
    that the loop ran to its end; the list is the heights whose
    [storeResult] succeeded, in the order of the calls. *)
Fixpoint storeLoop (ec : committee) (results : gmap Z (option ElectionResult))
    (errs : gmap Z (option error)) (hs : list Z)
    : option outcome * committee * list Z :=
  match hs with
  | [] => (None, ec, [])
  | height :: rest =>
      match errAt errs height with
      | Some err => (Some (Returned (Some err)), ec, [])
      | None =>
          match resultAt results height with
          | None => (Some Panic, ec, [])
          | Some result =>
              match hm_validate (heightMgr ec) height (resMintTime result) with
              | Some e => (Some (Fatal e), ec, [])
              | None =>
                  match storeResult ec height result with
                  | (Some e, ec) =>
                      (Some (Returned
                               (Some (Wrapf e "failed to store result of height"
                                        (Some height)))), ec, [])
                  | (None, ec) =>
                      let ec := set_nextHeight ec (wrap64 (height + interval ec)) in
                      let '(o, ec, stored) := storeLoop ec results errs rest in
                      (o, ec, height :: stored)
                  end
              end
          end
      end
  end.

Definition batchHeights (results : gmap Z (option ElectionResult)) : list Z :=
  sortedHeights (map fst (map_to_list results)).

Definition storeInBatch (ec : committee) (results : gmap Z (option ElectionResult))
    (errs : gmap Z (option error)) (tipTime : Time)
    : outcome * committee * list Z :=
  match storeLoop ec results errs (batchHeights results) with
  | (Some o, ec, stored) => (o, ec, stored)
  | (None, ec, stored) =>
      (Returned None, set_lastUpdateTimestamp ec (Unix tipTime), stored)
  end.

(** *** retry *)

Section Retry.
(** [fetchResultByHeight] talks to the chain client: it is taken as a
    transition on the state of the outside world. *)
Variable World : Type.
Variable fetchResultByHeight :
  World -> Z -> World * option ElectionResult * option error.

(** The loop of [retryFetchResultByHeight], with [n] iterations left;
    the last component counts the calls of [fetchResultByHeight]. *)
Fixpoint retryLoop (n : nat) (w : World) (height : Z)
    (result : option ElectionResult) (err : option error)
    : World * option ElectionResult * option error * nat :=
  match n with
  | O => (w, result, err, O)
  | S n' =>
      match fetchResultByHeight w height with
      | (w, result, None) => (w, result, None, 1%nat)
      | (w, result, Some e) =>
          let '(w, result, err, k) := retryLoop n' w height result (Some e) in
          (w, result, err, S k)
      end
  end.

Definition retryFetchResultByHeight (ec : committee) (w : World) (height : Z)
    : World * option ElectionResult * option error * nat :=
  retryLoop (Z.to_nat (retryLimit ec)) w height None None.
End Retry.

End Engine.

(** *** the rest of the engine *)

(** The fields of [committee] that the commit path does not read: page
    size, thresholds and the other settings [NewCommittee] copies from
    the configuration. *)
Record settings := mkSettings {
  paginationSize : Z;
  fetchInParallel : Z;
  skipManifiedCandidate : bool;
  voteThreshold : Z;
  scoreThreshold : Z;
  selfStakingThreshold : Z;
  gravityChainBatchSize : Z
}.

(** [voteFilter]: [ec.voteThreshold.Cmp(v.Amount()) > 0]. *)
Definition voteFilter (cfg : settings) (v : Vote) : bool :=
  voteThreshold cfg >? Amount v.

(** [candidateFilter]. *)
Definition candidateFilter (cfg : settings) (c : Candidate) : bool :=
  (selfStakingThreshold cfg >? selfStakingTokens c) || (scoreThreshold cfg >? score c).

(** The loop of [fetchInBatch]: the heights for which a fetch is started,
    in the order of the loop.  The counter and the bound are unsigned
    64-bit; [None] means that [fuel] iterations did not end the loop. *)
Fixpoint batchLoop (fuel : nat) (next bound step : Z) : option (list Z) :=
  match fuel with
  | O => None
  | S fuel' =>
      if next <=? bound
      then option_map (cons next) (batchLoop fuel' (wrap64 (next + step)) bound step)
      else Some []
  end.

Section Paging.
(** [carrier.Votes] and [carrier.Candidates]: a page request takes the
    height, the previous index and the page size, and answers with the
    next index, the items and an error. *)
Variable World : Type.
Variable Item : Type.
Variable page : World -> Z -> Z -> Z -> World * (Z * list Item * option error).

(** The loop of [fetchVotesByHeight] and of [fetchCandidatesByHeight]:
    [None] means that [fuel] iterations did not end it; an error drops
    what was gathered. *)
Fixpoint fetchPages (fuel : nat) (w : World) (height previousIndex pageSize : Z)
    (all : list Item) : World * option (error + list Item) :=
  match fuel with
  | O => (w, None)
  | S fuel' =>
      match page w height previousIndex pageSize with
      | (w, (_, _, Some err)) => (w, Some (inl err))
      | (w, (previousIndex, items, None)) =>
          let all := all ++ items in
          if Z.of_nat (length items) <? pageSize then (w, Some (inr all))
          else fetchPages fuel' w height previousIndex pageSize all
      end
  end.

(** [fetchVotesByHeight]: the cursor starts at 0. *)
Definition fetchVotesByHeight (fuel : nat) (cfg : settings) (w : World) (height : Z)
    : World * option (error + list Item) :=
  fetchPages fuel w height 0 (paginationSize cfg) [].

(** [fetchCandidatesByHeight]: the cursor starts at 1. *)
Definition fetchCandidatesByHeight (fuel : nat) (cfg : settings) (w : World)
    (height : Z) : World * option (error + list Item) :=
  fetchPages fuel w height 1 (paginationSize cfg) [].
End Paging.

(** What the queries need beyond [Backend]: reads of the store and of the
    cache (a read of the cache may reorder it), the decoding of a stored
    result into a fresh [ElectionResult] (the receiver as the attempt left
    it, and the error), and the store's not-found error. *)
Class Reader `{Backend} := {
  db_Get : DB -> list byte -> option (list byte) * option error;
  cache_get : Cache -> Z -> option ElectionResult * Cache;
  Deserialize : list byte -> ElectionResult * option error;
  ErrNotExist : error
}.

(** How a query ends: with a result pointer and an error, or in the
    run-time panic of an integer division by zero. *)
Inductive answer :=
| Answer (result : option ElectionResult) (err : option error)
| DivideByZero.

Section Queries.
Context `{Reader}.

Definition set_currentHeight (ec : committee) (h : Z) : committee :=
  {| db := db ec; retryLimit := retryLimit ec; interval := interval ec;
     cache := cache ec; heightMgr := heightMgr ec;
     startHeight := startHeight ec; nextHeight := nextHeight ec;
     currentHeight := h;
     lastUpdateTimestamp := lastUpdateTimestamp ec |}.

(** The head of [fetchInBatch]: [currentHeight] is raised to the tip, and
    a fetch is started for every height of the loop, whose bound
    [ec.currentHeight-12] is computed in unsigned 64-bit arithmetic. *)
Definition fetchInBatch_heights (fuel : nat) (ec : committee) (tipHeight : Z)
    : committee * option (list Z) :=
  let ec := if currentHeight ec <? tipHeight then set_currentHeight ec tipHeight
            else ec in
  (ec, batchLoop fuel (nextHeight ec) (wrap64 (currentHeight ec - 12)) (interval ec)).

(** [LatestHeight]. *)
Definition LatestHeight (ec : committee) : Z :=
  match last (heights (heightMgr ec)) with
  | Some h => h
  | None => 0
  end.

(** [resultByHeight].  Heights are unsigned 64-bit and the first test
    has passed when the difference is taken, so it does not wrap; the
    remainder by a zero interval is a run-time panic. *)
Definition resultByHeight (ec : committee) (height : Z) : answer * committee :=
  if height <? startHeight ec
  then (Answer None (Some (ErrorOf "height is lower than start height")), ec)
  else if interval ec =? 0 then (DivideByZero, ec)
  else if negb ((height - startHeight ec) mod interval ec =? 0)
  then (Answer None (Some (ErrorOf "height is an invalid height")), ec)
  else
    match cache_get (cache ec) height with
    | (Some result, c) => (Answer (Some result) None, set_cache ec c)
    | (None, c) =>
        let ec := set_cache ec c in
        match db_Get (db ec) (dbKey height) with
        | (_, Some err) => (Answer None (Some err), ec)
        | (None, None) => (Answer None (Some ErrNotExist), ec)
        | (Some data, None) =>
            let '(result, err) := Deserialize data in
            (Answer (Some result) err, ec)
        end
    end.
End Queries.

End committee.

(** ** Concrete calculators used as test inputs *)

Module Examples.
Import types.

Definition plainScore (b : Bucket) (now : Time) : Z :=
  if now <? startTime b then 0 else amount b.

Definition noBucketFilter (_ : Bucket) : bool := false.
Definition noCandidateFilter (_ : Candidate) : bool := false.

(** Mint time 1_000_000 s after the epoch. *)
Definition mint : Time := 1000000 * 1000000000.

Definition regA : Registration := mkRegistration [xaa] [x01] [] [] 1.
Definition regB : Registration := mkRegistration [xbb] [x02] [] [] 1.
Definition regX : Registration := mkRegistration [xcc] [x0a] [] [] 3.
Definition regM : Registration := mkRegistration [xdd] [x0d] [] [] 2.

Definition bucketFor (v c : list byte) (start : Time) (amt : Z) : Bucket :=
  mkBucket start 86400000000000 amt true v (Some c).

Definition fresh (skip : bool) : ResultCalculator :=
  NewResultCalculator mint skip noBucketFilter plainScore noCandidateFilter.

(** Scenario 1 of the spec: two candidates, one bucket of 100 each. *)
Definition twoCandidates : ResultCalculator :=
  (AddBuckets (AddRegistrations (fresh false) [regA; regB]).2
     [bucketFor [x05] [xaa] 0 100; bucketFor [x06] [xbb] 0 100]).2.

(** Scenario 4 of the spec: weight 3, the candidate votes for itself. *)
Definition selfVoter : ResultCalculator :=
  (AddRegistrations (fresh false) [regX]).2.

(** A bucket that starts after the mint time scores zero. *)
Definition lateBucket : Bucket := bucketFor [x05] [xaa] (mint + 1) 100.

Definition zeroScoreVotes : ResultCalculator :=
  (AddBuckets (AddRegistrations (fresh false) [regA]).2 [lateBucket]).2.

Definition reverseOrder : range_order := fun m => reverse (map_to_list m).

(** An in-memory stand-in for the store, the codec and the cache. *)
Definition memBackend : committee.Backend :=
  {| committee.DB := list (list byte * list byte);
     committee.db_Put := fun d k v => (None, (k, v) :: d);
     committee.NextHeightKey := bytes_of_string "nextHeight";
     committee.Serialize := fun _ => inr (bytes_of_string "result");
     committee.Cache := list (Z * ElectionResult);
     committee.cache_insert := fun c h r => (h, r) :: c |}.

Definition engine (limit : Z) : @committee.committee memBackend :=
  @committee.mkCommittee memBackend [] limit 10 [] committee.newHeightManager
    100 100 0 0.

Definition resultAtTime (seconds : Z) : ElectionResult :=
  {| resMintTime := seconds * 1000000000; delegates := []; votes := ∅;
     resTotalVotedStakes := 0; resTotalVotes := 0 |}.

(** Heights 100 and 110 fetched, the fetch of 120 failed. *)
Definition batchResults : gmap Z (option ElectionResult) :=
  <[100 := Some (resultAtTime 1000)]>
    (<[120 := None]> (<[110 := Some (resultAtTime 1010)]> ∅)).

Definition batchErrs : gmap Z (option committee.error) :=
  <[100 := None]>
    (<[120 := Some (committee.ErrorOf "timeout")]> (<[110 := None]> ∅)).

Definition batchRun :=
  @committee.storeInBatch memBackend (engine 3) batchResults batchErrs (1030 * 1000000000).

(** A chain client whose every fetch fails. *)
Definition failingFetch (w : nat) (height : Z)
    : nat * option ElectionResult * option committee.error :=
  (S w, None, Some (committee.ErrorOf "unreachable")).
(** A client that serves the items [data], the first of which has index
    [first], in pages. *)
Definition servePage (data : list Z) (first : Z) (w : nat) (height i n : Z)
    : nat * (Z * list Z * option committee.error) :=
  (w, (i + Z.of_nat (length (take (Z.to_nat n) (drop (Z.to_nat (i - first)) data))),
       take (Z.to_nat n) (drop (Z.to_nat (i - first)) data), None)).

Definition pageSettings (size : Z) : committee.settings :=
  committee.mkSettings size 10 false 0 50 0 10.

(** As [twoCandidates], under the engine's candidate filter with a score
    threshold of 50, and with 10 instead of 100 voted for the second
    candidate. *)
Definition underThresholds : ResultCalculator :=
  (AddBuckets
     (AddRegistrations
        (NewResultCalculator mint false noBucketFilter plainScore
           (committee.candidateFilter (pageSettings 2)))
        [regA; regB]).2
     [bucketFor [x05] [xaa] 0 100; bucketFor [x06] [xbb] 0 10]).2.

(** A store, a cache and a codec that read back what [memBackend] wrote:
    the store and the cache return the newest entry under a key. *)
Definition memReader : @committee.Reader memBackend :=
  {| committee.db_Get := fun (d : @committee.DB memBackend) k =>
       (match List.find (fun e => types.bytes_Equal e.1 k) d with
        | Some e => Some e.2
        | None => None
        end, None);
     committee.cache_get := fun (c : @committee.Cache memBackend) h =>
       (match List.find (fun e => e.1 =? h) c with
        | Some e => Some e.2
        | None => None
        end, c);
     committee.Deserialize := fun _ => (resultAtTime 0, None);
     committee.ErrNotExist := committee.ErrorOf "not exist" |}.
(** What [Calculate] returns for [twoCandidates]. *)
Definition twoCandidatesResult : ElectionResult :=
  {| resMintTime := mint;
     delegates := [NewCandidate regA 100 0; NewCandidate regB 100 0];
     votes := candidateVotes twoCandidates;
     resTotalVotedStakes := 200; resTotalVotes := 200 |}.
End Examples.

(** ** Vocabulary of the properties *)

Import types.

(** Whether [AddRegistrations] passes over a registration without
    inserting it. *)
Definition skipped (calc : ResultCalculator) (r : Registration) : bool :=
  (rSelfStakingWeight r >? 1) && skipManified calc.

(** The composite order of section 4.3 on (score, priority, name): score
    descending, then priority descending, then name descending. *)
Definition key_gt (s1 p1 : Z) (n1 : string) (s2 p2 : Z) (n2 : string) : Prop :=
  s1 > s2 \/
  (s1 = s2 /\ (p1 > p2 \/ (p1 = p2 /\ String.compare n1 n2 = Gt))).

(** [a] is not after [b]: the relation a stably sorted slice satisfies
    between neighbours. *)
Definition notAfter (a b : item) : Prop := Less b a = false.

(** The candidate map is keyed by the lowercase-hex form of the names. *)
Definition keyedByHex (calc : ResultCalculator) : Prop :=
  forall k c, candidates calc !! k = Some c -> k = hex (name c).

(** The qualifying entries of the map, in the order of the ranking. *)
Definition rankedEntries (calc : ResultCalculator) (order : range_order)
    : list (string * Candidate) :=
  Stable (fun a b => Less (itemOf (timestampBytes (mintTime calc)) a)
                          (itemOf (timestampBytes (mintTime calc)) b))
    (List.filter (qualifies calc) (order (candidates calc))).

(** The priority [filterAndSortCandidates] gives to a candidate. *)
Definition priority (mint : Time) (c : Candidate) : Z :=
  priorityOf (hex (name c)) (timestampBytes mint).

(** The priority as the spec words it: the first eight bytes of
    BLAKE2b-256 of the given bytes followed by the little-endian mint-time
    seconds, read as a little-endian unsigned 64-bit integer. *)
Definition hashPriority (nameBytes : list byte) (mint : Time) : option Z :=
  util.BytesToUint64
    (take 8 (blake2b.Sum256 (nameBytes ++ util.Uint64ToBytes (wrap64 (Unix mint))))).

(** The value of a hex digit, as [encoding/hex] reads it back. *)
Definition fromHexChar (c : ascii) : Z :=
  let n := Z.of_N (N_of_ascii c) in
  if n <? 58 then n - 48 else n - 87.

(** The sum of the weighted scores of a vote list. *)
Definition sumWeighted (vs : list Vote) : Z :=
  fold_right (fun v acc => weighted v + acc) 0 vs.

(** Every candidate has a vote list, every vote list a candidate, and the
    score of a candidate is the sum of the weighted scores of its votes. *)
Definition scoresMatchVotes (calc : ResultCalculator) : Prop :=
  forall k,
    match candidates calc !! k, candidateVotes calc !! k with
    | Some c, Some vs => score c = sumWeighted vs
    | None, None => True
    | _, _ => False
    end.

(** The two calculators have the same candidate keys, and under each key
    candidates that differ at most in score and self-staking tokens. *)
Definition sameCandidates (calc calc' : ResultCalculator) : Prop :=
  forall k,
    match candidates calc !! k, candidates calc' !! k with
    | Some c, Some c' =>
        name c' = name c /\ address c' = address c /\
        operatorAddress c' = operatorAddress c /\
        rewardAddress c' = rewardAddress c /\
        selfStakingWeight c' = selfStakingWeight c
    | None, None => True
    | _, _ => False
    end.

Section FetchedBatch.
Context `{committee.Backend}.
Variable World : Type.
Variable fetch :
  World -> Z -> World * option ElectionResult * option committee.error.

(** The two maps [fetchInBatch] fills for the heights [hs]: under each
    height, the result and the error that [committee.retryFetchResultByHeight]
    returned for it. *)
Definition fetchedResults (ec : committee.committee) (w : World) (hs : list Z)
    : gmap Z (option ElectionResult) :=
  list_to_map
    (map (fun h => (h, (committee.retryFetchResultByHeight World fetch ec w h).1.1.2)) hs).

Definition fetchedErrs (ec : committee.committee) (w : World) (hs : list Z)
    : gmap Z (option committee.error) :=
  list_to_map
    (map (fun h => (h, (committee.retryFetchResultByHeight World fetch ec w h).1.2)) hs).
End FetchedBatch.

Section Serving.
Variable World : Type.
Variable Item : Type.
Variable page :
  World -> Z -> Z -> Z -> World * (Z * list Item * option committee.error).

(** A client that serves the list [data], whose first item has index
    [first]: a request for [n] items after index [i] is answered with the
    next [n] items, or with those that are left, and the index behind
    them. *)
Definition serves (data : list Item) (first : Z) : Prop :=
  forall w h i n,
    page w h i n
    = (w, (i + Z.of_nat (length (take (Z.to_nat n) (drop (Z.to_nat (i - first)) data))),
           take (Z.to_nat n) (drop (Z.to_nat (i - first)) data), None)).
End Serving.

Section CommitSpec.
Context `{committee.Backend}.
Variable results : gmap Z (option ElectionResult).
Variable errs : gmap Z (option committee.error).


End CommitSpec.

(** * Properties *)

(** ** Bytes and the hash *)

Lemma le_put64_length u : length (le_put64 u) = 8%nat.
Proof. reflexivity. Qed.

Lemma compress_length h blk t f : length (blake2b.compress h blk t f) = 8%nat.
Proof. reflexivity. Qed.

Lemma absorb_length fuel : forall h t msg,
  length h = 8%nat -> length (blake2b.absorb fuel h t msg) = 8%nat.
Proof.
  induction fuel as [|fuel IH]; intros h t msg Hh; simpl; [exact Hh|].
  destruct (length msg <=? 128)%nat.
  - apply compress_length.
  - apply IH, compress_length.
Qed.

Lemma Sum256_length data : length (blake2b.Sum256 data) = 32%nat.
Proof.
  unfold blake2b.Sum256, blake2b.digest.
  set (h := blake2b.absorb _ _ _ _).
  assert (Hh : length h = 8%nat) by (apply absorb_length; reflexivity).
  destruct h as [|a [|b [|c [|d [|e [|f [|g [|i [|j h]]]]]]]]]; try discriminate Hh.
  reflexivity.
Qed.

(** The read of the priority never fails: the hash has 32 bytes. *)
Lemma priority_defined nm tsBytes :
  util.BytesToUint64 (take 8 (blake2b.Sum256 (bytes_of_string nm ++ tsBytes)))
  = Some (priorityOf nm tsBytes).
Proof.
  unfold priorityOf, util.BytesToUint64, le_uint64.
  rewrite length_take, Sum256_length. reflexivity.
Qed.

(** RFC 7693, appendix A: BLAKE2b-512 of "abc" starts ba 80 a5 3f, and
    the BLAKE2b-256 digests of "abc" and of the empty string. *)
Example blake2b_512_abc :
  EncodeToString (take 8 (blake2b.digest 64 (bytes_of_string "abc"))) = "ba80a53f981c4d0d"%string.
Proof. vm_compute. reflexivity. Qed.

Example blake2b_256_abc :
  EncodeToString (blake2b.Sum256 (bytes_of_string "abc"))
  = "bddd813c634239723171ef3fee98579b94964e3bb1cb3e427262c8c068d52319"%string.
Proof. vm_compute. reflexivity. Qed.

Example blake2b_256_empty :
  EncodeToString (blake2b.Sum256 [])
  = "0e5751c026e543b2e8ab2eb06099daa1d1e5df47778f7787faab45cdf12fe3a8"%string.
Proof. vm_compute. reflexivity. Qed.

Example hex_zero_name : hex (replicate 12 x00) = candidateZero.
Proof. reflexivity. Qed.

(** ** AddBuckets *)

Lemma strings_Compare_eq a b : (strings_Compare a b =? 0) = true <-> a = b.
Proof.
  unfold strings_Compare. split.
  - destruct (String.compare a b) eqn:E; try discriminate.
    intros _. now apply String.compare_eq_iff.
  - intros ->. destruct (String.compare b b) eqn:E; [reflexivity| |].
    + pose proof (String.compare_antisym b b) as Ha. rewrite E in Ha. discriminate.
    + pose proof (String.compare_antisym b b) as Ha. rewrite E in Ha. discriminate.
Qed.

Lemma bytes_Equal_refl a : bytes_Equal a a = true.
Proof.
  induction a as [|x a IH]; simpl; [reflexivity|].
  assert (Byte.eqb x x = true) as -> by now apply Byte.byte_dec_lb.
  rewrite IH. reflexivity.
Qed.

Lemma addBuckets_loop_app calc l1 l2 :
  addBuckets_loop calc (l1 ++ l2) =
  match addBuckets_loop calc l1 with
  | (Some e, calc') => (Some e, calc')
  | (None, calc') => addBuckets_loop calc' l2
  end.
Proof.
  revert calc. induction l1 as [|b l1 IH]; intros calc; simpl; [reflexivity|].
  destruct (addBucket calc b) as [[e calc']|calc']; [reflexivity|apply IH].
Qed.

(** C5. A bucket without a candidate name, or with the reserved name of
    12 zero bytes, leaves the calculator as it was, whatever the score
    function of the calculator would give for it; so wherever it stands in
    the list handed to [AddBuckets], totals, candidates and vote lists
    come out as if it were not there. *)
Theorem reserved_or_missing_name_is_skipped (calc : ResultCalculator) (b : Bucket) :
  candidate b = None \/ candidate b = Some (replicate 12 x00) ->
  addBucket calc b = inr calc /\
  forall pre post,
    AddBuckets calc (pre ++ b :: post) = AddBuckets calc (pre ++ post).
Proof.
  intros Hb.
  assert (Hskip : forall c, addBucket c b = inr c).
  { intros c. unfold addBucket. destruct (bucketFilter c b); [reflexivity|].
    destruct Hb as [-> | ->]; reflexivity. }
  split; [apply Hskip|].
  intros pre post. unfold AddBuckets. destruct (calculated calc); [reflexivity|].
  rewrite !addBuckets_loop_app.
  destruct (addBuckets_loop calc pre) as [[e|] calc']; [reflexivity|].
  simpl. now rewrite Hskip.
Qed.

Lemma reserved_or_missing_name_is_skipped_witness :
  addBucket Examples.twoCandidates
    (mkBucket 0 0 100 true [x05] (Some (replicate 12 x00)))
  = inr Examples.twoCandidates.
Proof.
  apply (reserved_or_missing_name_is_skipped Examples.twoCandidates
           (mkBucket 0 0 100 true [x05] (Some (replicate 12 x00)))).
  right. reflexivity.
Defined.

(** C4. A bucket that reaches the aggregation step (not filtered, its
    candidate registered under a name other than the reserved one) and
    whose voter is the candidate's own address is scaled by the
    candidate's weight [k]: [k * m] goes to [totalVotedStakes] and to the
    candidate's self-staking tokens, [k * s] to the candidate's score and
    to [totalVotes], and the vote appended to the candidate's list carries
    [k * s]. *)
Theorem self_vote_is_scaled (calc : ResultCalculator) (b : Bucket)
    (nm : list byte) (cand : Candidate) (k m s : Z) :
  calculated calc = false ->
  bucketFilter calc b = false ->
  candidate b = Some nm ->
  hex nm <> candidateZero ->
  candidates calc !! hex nm = Some cand ->
  selfStakingWeight cand = k ->
  voter b = address cand ->
  amount b = m ->
  calcScore calc b (mintTime calc) = s ->
  0 <= k -> 0 <= m -> 0 <= s ->
  exists calc' cand',
    AddBuckets calc [b] = (None, calc') /\
    totalVotedStakes calc' = totalVotedStakes calc + k * m /\
    totalVotes calc' = totalVotes calc + k * s /\
    candidates calc' !! hex nm = Some cand' /\
    selfStakingTokens cand' = selfStakingTokens cand + k * m /\
    score cand' = score cand + k * s /\
    candidateVotes calc' !! hex nm
    = Some (default [] (candidateVotes calc !! hex nm)
            ++ [{| bucket := b; weighted := k * s |}]).
Proof.
  intros Hcalc Hf Hnm Hz Hc Hk Hv Hm Hs Hk0 Hm0 Hs0.
  unfold AddBuckets. rewrite Hcalc. simpl. unfold addBucket.
  rewrite Hf, Hnm.
  destruct (strings_Compare (hex nm) candidateZero =? 0) eqn:E.
  { apply strings_Compare_eq in E. contradiction. }
  rewrite Hc. unfold selfVote. rewrite Hv, bytes_Equal_refl.
  rewrite Hm, Hs, Hk. unfold addSelfStakingTokens.
  destruct (m * k <? 0) eqn:E1; [apply Z.ltb_lt in E1; nia|].
  unfold NewVote. destruct (s * k <? 0) eqn:E2; [apply Z.ltb_lt in E2; nia|].
  unfold addScore. simpl. rewrite E2.
  eexists _, _. split; [reflexivity|]. simpl.
  rewrite !lookup_insert_eq.
  repeat split; simpl; try lia.
  now rewrite (Z.mul_comm s k).
Qed.

(** Scenario 4 of the spec: weight 3, amount 10, score 10. *)
Lemma self_vote_is_scaled_witness :
  exists calc' cand',
    AddBuckets Examples.selfVoter [Examples.bucketFor [x0a] [xcc] 0 10] = (None, calc') /\
    totalVotedStakes calc' = 0 + 3 * 10 /\
    totalVotes calc' = 0 + 3 * 10 /\
    candidates calc' !! hex [xcc] = Some cand' /\
    selfStakingTokens cand' = 0 + 3 * 10 /\
    score cand' = 0 + 3 * 10 /\
    candidateVotes calc' !! hex [xcc]
    = Some (default [] (candidateVotes Examples.selfVoter !! hex [xcc])
            ++ [{| bucket := Examples.bucketFor [x0a] [xcc] 0 10; weighted := 3 * 10 |}]).
Proof.
  apply (self_vote_is_scaled Examples.selfVoter (Examples.bucketFor [x0a] [xcc] 0 10)
           [xcc] (NewCandidate Examples.regX 0 0) 3 10 10);
    try reflexivity; try lia.
  vm_compute. discriminate.
Defined.

(** ** AddRegistrations *)

(** C6, as the code has it: [AddRegistrations] returns an error and
    leaves the calculator untouched whenever the calculator is already
    calculated or its [totalVotes] is greater than zero. *)
Theorem addRegistrations_fails_after_positive_votes
    (calc : ResultCalculator) (regs : list Registration) :
  calculated calc = true \/ totalVotes calc > 0 ->
  exists e, AddRegistrations calc regs = (Some e, calc).
Proof.
  intros Hc. unfold AddRegistrations.
  destruct (calculated calc) eqn:E; [eauto|].
  destruct Hc as [Hc|Hc]; [discriminate|].
  destruct (totalVotes calc >? 0) eqn:E2; [eauto|].
  rewrite Z.gtb_ltb in E2. apply Z.ltb_ge in E2. lia.
Qed.

Lemma addRegistrations_fails_after_positive_votes_witness :
  exists e, AddRegistrations Examples.twoCandidates [Examples.regX]
            = (Some e, Examples.twoCandidates).
Proof.
  apply (addRegistrations_fails_after_positive_votes Examples.twoCandidates
           [Examples.regX]).
  right. vm_compute. reflexivity.
Defined.

(** C6 as stated fails: after [AddBuckets] has recorded a vote whose score
    is zero (the bucket starts after the mint time), [totalVotes] is still
    zero, and [AddRegistrations] succeeds and inserts the new candidate. *)
Lemma addRegistrations_after_zero_score_vote :
  let calc := Examples.zeroScoreVotes in
  candidateVotes calc !! "aa"%string
    = Some [{| bucket := Examples.lateBucket; weighted := 0 |}] /\
  (AddRegistrations calc [Examples.regB]).1 = None /\
  candidates (AddRegistrations calc [Examples.regB]).2 !! "bb"%string
    = Some (NewCandidate Examples.regB 0 0).
Proof. vm_compute. repeat split. Qed.



Lemma addRegistrations_loop_duplicate (l : list Registration) :
  forall calc e calc',
    addRegistrations_loop calc l = (Some e, calc') ->
    exists pre dup post,
      l = pre ++ dup :: post /\
      e = duplicateError (hex (rName dup)) /\
      addRegistrations_loop calc pre = (None, calc') /\
      is_Some (candidates calc' !! hex (rName dup)) /\
      (forall r, r ∈ pre -> skipped calc r = false ->
         candidates calc' !! hex (rName r) = Some (NewCandidate r 0 0)) /\
      candidates calc ⊆ candidates calc' /\
      skipManified calc' = skipManified calc.
Proof.
  induction l as [|c rest IH]; intros calc e calc' Hrun; simpl in Hrun.
  { discriminate. }
  destruct (candidates calc !! hex (rName c)) as [old|] eqn:Hlook.
  - inversion Hrun; subst. exists [], c, rest. repeat split; eauto.
    intros r Hr. inversion Hr.
  - destruct ((rSelfStakingWeight c >? 1) && skipManified calc) eqn:Hskip.
    + destruct (IH _ _ _ Hrun)
        as (pre & dup & post & -> & He & Hrun' & Hd & Hpre & Hsub & Hsk).
      exists (c :: pre), dup, post. repeat split; auto.
      * simpl. now rewrite Hlook, Hskip.
      * intros r Hr Hr'. apply elem_of_cons in Hr as [->|Hr]; [|auto].
        unfold skipped in Hr'. congruence.
    + destruct (IH _ _ _ Hrun)
        as (pre & dup & post & -> & He & Hrun' & Hd & Hpre & Hsub & Hsk).
      simpl in Hsub, Hsk.
      exists (c :: pre), dup, post. repeat split; auto.
      * simpl. now rewrite Hlook, Hskip.
      * intros r Hr Hr'. apply elem_of_cons in Hr as [->|Hr]; [|auto].
        eapply lookup_weaken; [|exact Hsub]. apply lookup_insert_eq.
      * etrans; [|exact Hsub]. now apply insert_subseteq.
Qed.

(** C10, as the code has it: when [AddRegistrations] returns the
    duplicate-candidate error, the list splits at the registration [dup]
    at which the error is raised: the registrations [pre] before it have
    all been processed, the calculator the failing call leaves being the
    one that [AddRegistrations] on [pre] alone returns with nil; the name
    of [dup] is a key of that map; and every registration of [pre], other
    than those passed over because [skipManified] is set and their weight
    exceeds 1, is in the map as a new candidate, beside the entries the
    map had before the call. *)
Theorem addRegistrations_keeps_entries_before_duplicate
    (calc calc' : ResultCalculator) (regs : list Registration) (nm : string) :
  AddRegistrations calc regs = (Some (duplicateError nm), calc') ->
  exists pre dup post,
    regs = pre ++ dup :: post /\
    nm = hex (rName dup) /\
    AddRegistrations calc pre = (None, calc') /\
    is_Some (candidates calc' !! nm) /\
    (forall r, r ∈ pre -> skipped calc r = false ->
       candidates calc' !! hex (rName r) = Some (NewCandidate r 0 0)) /\
    candidates calc ⊆ candidates calc'.
Proof.
  unfold AddRegistrations. intros Hrun.
  destruct (calculated calc); [discriminate|].
  destruct (totalVotes calc >? 0); [discriminate|].
  destruct (addRegistrations_loop_duplicate _ _ _ _ Hrun)
    as (pre & dup & post & -> & He & Hrun' & Hd & Hpre & Hsub & _).
  exists pre, dup, post. unfold duplicateError in He.
  apply (inj (String.append _)) in He. subst nm.
  split; [reflexivity|]. split; [reflexivity|]. split; [exact Hrun'|].
  split; [exact Hd|]. split; [exact Hpre|exact Hsub].
Qed.

(** For the list [A; B; A] the split can only be before the second [A]:
    [B], which stands between the two, is in the map when the error comes
    back. *)
Lemma addRegistrations_keeps_entries_before_duplicate_witness :
  candidates (AddRegistrations (Examples.fresh false)
                [Examples.regA; Examples.regB; Examples.regA]).2 !! "bb"%string
  = Some (NewCandidate Examples.regB 0 0).
Proof.
  destruct (addRegistrations_keeps_entries_before_duplicate (Examples.fresh false)
              (AddRegistrations (Examples.fresh false)
                 [Examples.regA; Examples.regB; Examples.regA]).2
              [Examples.regA; Examples.regB; Examples.regA] "aa"%string)
    as (pre & dup & post & Hsplit & Hnm & Hpre & Hsome & Hin & _).
  - vm_compute. reflexivity.
  - destruct pre as [|r1 [|r2 [|r3 pre]]]; simpl in Hsplit.
    + exfalso. vm_compute in Hpre. discriminate Hpre.
    + exfalso. injection Hsplit as _ <- _. vm_compute in Hnm. discriminate Hnm.
    + injection Hsplit as <- <- _ _.
      apply (Hin Examples.regB); [|reflexivity]. right. left.
    + exfalso. injection Hsplit as _ _ _ Hnil. destruct pre; discriminate Hnil.
Defined.

(** C10 as stated fails: with [skipManified] set, the registration of
    weight 2 that precedes the duplicate is passed over, so it is not in
    the map when the duplicate-candidate error comes back. *)
Lemma addRegistrations_skipped_before_duplicate :
  let regs := [Examples.regM; Examples.regB; Examples.regB] in
  (AddRegistrations (Examples.fresh true) regs).1 = Some (duplicateError "bb") /\
  candidates (AddRegistrations (Examples.fresh true) regs).2 !! hex (rName Examples.regM)
    = None /\
  candidates (AddRegistrations (Examples.fresh true) regs).2 !! hex (rName Examples.regB)
    = Some (NewCandidate Examples.regB 0 0).
Proof. vm_compute. repeat split. Qed.

(** ** The order of [itemList.Less] *)

Lemma string_compare_refl s : String.compare s s = Eq.
Proof.
  destruct (String.compare s s) eqn:E; [reflexivity| |];
    pose proof (String.compare_antisym s s) as Ha; rewrite E in Ha; discriminate.
Qed.

Lemma string_compare_Gt_trans a b c :
  String.compare a b = Gt -> String.compare b c = Gt -> String.compare a c = Gt.
Proof.
  intros Hab Hbc.
  assert (Hba : OrderedTypeEx.String_as_OT.lt b a).
  { apply OrderedTypeEx.String_as_OT.cmp_lt. unfold OrderedTypeEx.String_as_OT.cmp.
    rewrite String.compare_antisym, Hab. reflexivity. }
  assert (Hcb : OrderedTypeEx.String_as_OT.lt c b).
  { apply OrderedTypeEx.String_as_OT.cmp_lt. unfold OrderedTypeEx.String_as_OT.cmp.
    rewrite String.compare_antisym, Hbc. reflexivity. }
  pose proof (OrderedTypeEx.String_as_OT.lt_trans _ _ _ Hcb Hba) as Hca.
  apply OrderedTypeEx.String_as_OT.cmp_lt in Hca.
  unfold OrderedTypeEx.String_as_OT.cmp in Hca.
  rewrite String.compare_antisym, Hca. reflexivity.
Qed.


(** [Less] decides the composite order. *)
Lemma Less_spec a b :
  Less a b = true <->
  key_gt (Value a) (Priority a) (Key a) (Value b) (Priority b) (Key b).
Proof.
  unfold Less, key_gt, strings_Compare.
  destruct (Value a ?= Value b) eqn:Ev.
  - apply Z.compare_eq in Ev.
    destruct (Priority a <? Priority b) eqn:E1.
    { apply Z.ltb_lt in E1. split; [discriminate|]. intros [?|[_ [?|[? _]]]]; lia. }
    apply Z.ltb_ge in E1.
    destruct (Priority a >? Priority b) eqn:E2.
    { rewrite Z.gtb_ltb in E2. apply Z.ltb_lt in E2. split; [|reflexivity].
      intros _. right. split; [assumption|]. left. lia. }
    rewrite Z.gtb_ltb in E2. apply Z.ltb_ge in E2.
    destruct (String.compare (Key a) (Key b)) eqn:Es.
    + split; [discriminate|]. intros [?|[_ [?|[_ ?]]]]; try lia. discriminate.
    + split; [discriminate|]. intros [?|[_ [?|[_ ?]]]]; try lia. discriminate.
    + split; [|reflexivity]. intros _. right. split; [assumption|]. right.
      split; [lia|reflexivity].
  - rewrite Z.compare_lt_iff in Ev. split; [discriminate|].
    intros [?|[? _]]; lia.
  - rewrite Z.compare_gt_iff in Ev. split; [|reflexivity]. intros _. left. lia.
Qed.

Lemma Less_irrefl a : Less a a = false.
Proof.
  destruct (Less a a) eqn:E; [|reflexivity].
  apply Less_spec in E. destruct E as [?|[_ [?|[_ E]]]]; try lia.
  rewrite string_compare_refl in E. discriminate.
Qed.

Lemma Less_trans a b c : Less a b = true -> Less b c = true -> Less a c = true.
Proof.
  rewrite !Less_spec. unfold key_gt.
  intros [?|[? [?|[? Hs1]]]] [?|[? [?|[? Hs2]]]]; try (left; lia);
    try (right; split; [lia|]; left; lia).
  right. split; [lia|]. right. split; [lia|].
  eapply string_compare_Gt_trans; eassumption.
Qed.

Lemma Less_asym a b : Less a b = true -> Less b a = false.
Proof.
  intros Hab. destruct (Less b a) eqn:Hba; [|reflexivity].
  pose proof (Less_trans _ _ _ Hab Hba) as Haa. rewrite Less_irrefl in Haa. discriminate.
Qed.

(** Two items neither of which sorts before the other are the same item. *)
Lemma Less_total a b : Less a b = false -> Less b a = false -> a = b.
Proof.
  intros Hab Hba.
  assert (Hnab : ~ key_gt (Value a) (Priority a) (Key a) (Value b) (Priority b) (Key b)).
  { rewrite <- Less_spec. congruence. }
  assert (Hnba : ~ key_gt (Value b) (Priority b) (Key b) (Value a) (Priority a) (Key a)).
  { rewrite <- Less_spec. congruence. }
  unfold key_gt in *.
  assert (Hv : Value a = Value b) by lia.
  assert (Hp : Priority a = Priority b) by lia.
  assert (Hk : Key a = Key b).
  { destruct (String.compare (Key a) (Key b)) eqn:Es.
    - now apply String.compare_eq_iff.
    - exfalso. apply Hnba. right. split; [lia|]. right. split; [lia|].
      rewrite String.compare_antisym, Es. reflexivity.
    - exfalso. apply Hnab. right. split; [lia|]. right. split; [lia|reflexivity]. }
  destruct a, b; simpl in *; congruence.
Qed.


Lemma notAfter_iff a b : notAfter a b <-> a = b \/ Less a b = true.
Proof.
  unfold notAfter. split.
  - intros Hba. destruct (Less a b) eqn:Hab; [now right|]. left. now apply Less_total.
  - intros [->|Hab]; [apply Less_irrefl|now apply Less_asym].
Qed.

#[local] Instance notAfter_trans : Transitive notAfter.
Proof.
  intros a b c. rewrite !notAfter_iff.
  intros [->|Hab] [->|Hbc]; auto. right. eapply Less_trans; eassumption.
Qed.

#[local] Instance notAfter_antisym : AntiSymm (=) notAfter.
Proof. intros a b Hab Hba. unfold notAfter in *. now apply Less_total. Qed.

(** ** sort.Stable *)

Section StableFacts.
Context {A : Type} (less : A -> A -> bool).
Hypothesis less_asym : forall a b, less a b = true -> less b a = false.

Lemma insert_stable_perm x l : insert_stable less x l ≡ₚ x :: l.
Proof.
  induction l as [|y l IH]; simpl; [reflexivity|].
  destruct (less y x); [|reflexivity].
  rewrite IH. apply Permutation_swap.
Qed.

Lemma Stable_perm l : Stable less l ≡ₚ l.
Proof.
  induction l as [|x l IH]; simpl; [reflexivity|].
  rewrite insert_stable_perm. now rewrite IH.
Qed.

Lemma insert_stable_sorted x l :
  Sorted (fun a b => less b a = false) l ->
  Sorted (fun a b => less b a = false) (insert_stable less x l).
Proof.
  induction 1 as [|y l Hs IH Hhd]; simpl.
  { repeat constructor. }
  destruct (less y x) eqn:E.
  - constructor; [exact IH|].
    destruct Hhd as [|z l Hyz]; simpl.
    + constructor. now apply less_asym.
    + destruct (less z x); constructor; [exact Hyz|].
      now apply less_asym.
  - constructor; [now constructor|]. constructor. exact E.
Qed.

Lemma Stable_sorted l : Sorted (fun a b => less b a = false) (Stable less l).
Proof.
  induction l as [|x l IH]; simpl; [constructor|].
  now apply insert_stable_sorted.
Qed.
End StableFacts.

Lemma Stable_map {A B : Type} (f : A -> B) (less : B -> B -> bool) (l : list A) :
  Stable less (map f l) = map f (Stable (fun a b => less (f a) (f b)) l).
Proof.
  induction l as [|x l IH]; simpl; [reflexivity|].
  rewrite IH. generalize (Stable (fun a b => less (f a) (f b)) l). intros s.
  induction s as [|y s IHs]; simpl; [reflexivity|].
  destruct (less (f y) (f x)); simpl; [now rewrite IHs|reflexivity].
Qed.

Lemma Sorted_neighbours {A : Type} (R : A -> A -> Prop) (l : list A) :
  Sorted R l ->
  forall (i : nat) a b, l !! i = Some a -> l !! S i = Some b -> R a b.
Proof.
  induction 1 as [|x l Hs IH Hhd]; intros i a b Ha Hb; [discriminate|].
  destruct i as [|i]; simpl in *.
  - inversion Ha; subst. destruct Hhd as [|y l Hxy]; [discriminate|].
    simpl in Hb. inversion Hb; subst. exact Hxy.
  - eapply IH; eassumption.
Qed.

Lemma filter_perm {A : Type} (f : A -> bool) (l1 l2 : list A) :
  l1 ≡ₚ l2 -> List.filter f l1 ≡ₚ List.filter f l2.
Proof.
  induction 1 as [|x l1 l2 _ IH|x y l|l1 l2 l3 _ IH1 _ IH2]; simpl.
  - reflexivity.
  - destruct (f x); [now constructor|exact IH].
  - destruct (f x), (f y); try reflexivity. apply Permutation_swap.
  - etrans; eassumption.
Qed.

(** ** The candidate map is keyed by the hex form of the names *)


Lemma addRegistrations_loop_keyedByHex l : forall calc,
  keyedByHex calc -> keyedByHex (addRegistrations_loop calc l).2.
Proof.
  induction l as [|r rest IH]; intros calc Hk; simpl; [exact Hk|].
  destruct (candidates calc !! hex (rName r)); [exact Hk|].
  destruct ((rSelfStakingWeight r >? 1) && skipManified calc); [now apply IH|].
  apply IH. intros k c. simpl. rewrite lookup_insert.
  case_decide as Hd; [|apply Hk]. intros [= <-]. now subst.
Qed.

Lemma with_candidate_keyedByHex calc k c :
  keyedByHex calc -> k = hex (name c) -> keyedByHex (with_candidate calc k c).
Proof.
  intros Hk Hc k' c'. simpl. rewrite lookup_insert.
  case_decide as Hd; [|apply Hk]. intros [= <-]. now subst.
Qed.

Lemma selfVote_name cand b amt sc amt' sc' cand' :
  selfVote cand b amt sc = inr (amt', sc', cand') -> name cand' = name cand.
Proof.
  unfold selfVote, addSelfStakingTokens.
  destruct (bytes_Equal _ _); [|now intros [= _ _ <-]].
  destruct (_ <? 0); [discriminate|]. now intros [= _ _ <-].
Qed.

Lemma addBucket_keyedByHex calc b :
  keyedByHex calc ->
  match addBucket calc b with
  | inl (_, calc') => keyedByHex calc'
  | inr calc' => keyedByHex calc'
  end.
Proof.
  intros Hk. unfold addBucket.
  destruct (bucketFilter calc b); [exact Hk|].
  destruct (candidate b) as [nm|]; [|exact Hk].
  destruct (_ =? 0); [exact Hk|].
  destruct (candidates calc !! hex nm) as [cand|] eqn:Hc; [|exact Hk].
  destruct (selfVote cand b _ _) as [e|[[amt sc] cand1]] eqn:Hs; [exact Hk|].
  apply selfVote_name in Hs. pose proof (Hk _ _ Hc) as Hnm.
  assert (Hk1 : keyedByHex (with_candidate calc (hex nm) cand1)).
  { apply with_candidate_keyedByHex; [exact Hk|congruence]. }
  destruct (NewVote b sc); [exact Hk1|].
  unfold addScore. destruct (sc <? 0); [exact Hk1|].
  intros k c. simpl. rewrite insert_insert_eq. rewrite lookup_insert.
  case_decide as Hd; [|apply Hk]. intros [= <-]. simpl. congruence.
Qed.

Lemma addBuckets_loop_keyedByHex l : forall calc,
  keyedByHex calc -> keyedByHex (addBuckets_loop calc l).2.
Proof.
  induction l as [|b rest IH]; intros calc Hk; simpl; [exact Hk|].
  pose proof (addBucket_keyedByHex calc b Hk) as Hb.
  destruct (addBucket calc b) as [[e calc']|calc']; [exact Hb|now apply IH].
Qed.

Lemma reachable_keyedByHex calc : reachable calc -> keyedByHex calc.
Proof.
  induction 1 as [mint skip bf cs cf|calc l _ IH|calc l _ IH].
  - intros k c. simpl. rewrite lookup_empty. discriminate.
  - unfold AddRegistrations. destruct (calculated calc); [exact IH|].
    destruct (totalVotes calc >? 0); [exact IH|].
    now apply addRegistrations_loop_keyedByHex.
  - unfold AddBuckets. destruct (calculated calc); [exact IH|].
    now apply addBuckets_loop_keyedByHex.
Qed.

(** ** The ranking *)


Lemma ranking_entries calc order :
  ranking calc order = map (itemOf (timestampBytes (mintTime calc))) (rankedEntries calc order).
Proof. unfold ranking, qualifierItems, rankedEntries. apply Stable_map. Qed.

Lemma rankedEntries_elem calc order e :
  admissible order ->
  e ∈ rankedEntries calc order <->
  candidates calc !! e.1 = Some e.2 /\ candidateFilter calc e.2 = false.
Proof.
  intros Hord. unfold rankedEntries. rewrite Stable_perm.
  rewrite list_elem_of_In, filter_In, <- list_elem_of_In, (Hord (candidates calc)).
  destruct e as [k c]. rewrite elem_of_map_to_list. unfold qualifies. simpl.
  now rewrite negb_true_iff.
Qed.

Lemma rankedEntries_NoDup calc order :
  admissible order -> NoDup (map fst (rankedEntries calc order)).
Proof.
  intros Hord. unfold rankedEntries. rewrite Stable_perm.
  assert (Hnd : NoDup (map fst (order (candidates calc)))).
  { rewrite (Hord (candidates calc)). apply NoDup_fst_map_to_list. }
  revert Hnd. generalize (order (candidates calc)). intros l.
  induction l as [|[k c] l IH]; simpl; [constructor|].
  intros Hnd. apply NoDup_cons in Hnd as [Hk Hnd].
  destruct (qualifies calc (k, c)); [|now apply IH].
  simpl. apply NoDup_cons. split; [|now apply IH].
  intros Hin. apply Hk. apply list_elem_of_fmap in Hin as [e [-> He]].
  apply list_elem_of_fmap. exists e. split; [reflexivity|].
  apply list_elem_of_In. apply list_elem_of_In in He. apply filter_In in He. tauto.
Qed.

Lemma delegates_entries calc order :
  admissible order ->
  omap (fun nm => candidates calc !! nm) (filterAndSortCandidates calc order)
  = map snd (rankedEntries calc order).
Proof.
  intros Hord. unfold filterAndSortCandidates. rewrite ranking_entries.
  assert (He : forall e, e ∈ rankedEntries calc order -> candidates calc !! e.1 = Some e.2).
  { intros e Hin. now apply (rankedEntries_elem calc order e Hord) in Hin as [? _]. }
  revert He. generalize (rankedEntries calc order). intros l.
  induction l as [|e l IH]; intros He; simpl; [reflexivity|].
  rewrite (He e) by (now left). simpl. f_equal. apply IH.
  intros e' Hin. apply He. now right.
Qed.

(** Every lookup that fills the delegate slice succeeds. *)
Lemma delegates_length calc order res calc' :
  admissible order ->
  Calculate calc order = (Some res, None, calc') ->
  length (delegates res) = length (filterAndSortCandidates calc order).
Proof.
  intros Hord. unfold Calculate. destruct (calculated calc); [discriminate|].
  intros [= <- _]. simpl. rewrite delegates_entries by assumption.
  unfold filterAndSortCandidates. rewrite ranking_entries.
  now rewrite !length_map.
Qed.

Lemma lookup_map {A B : Type} (f : A -> B) (l : list A) (i : nat) :
  map f l !! i = f <$> (l !! i).
Proof.
  revert i. induction l as [|x l IH]; intros [|i]; simpl; auto.
Qed.

Lemma itemOf_less_asym ts (a b : string * Candidate) :
  Less (itemOf ts a) (itemOf ts b) = true -> Less (itemOf ts b) (itemOf ts a) = false.
Proof. apply Less_asym. Qed.


(** C2. Any two neighbours in the delegate list that [Calculate] returns
    are strictly ordered by the composite key (score, priority, name):
    score descending, then priority descending as unsigned 64-bit values,
    then name (the lowercase-hex key) descending by string comparison. *)
Theorem delegates_strictly_ordered (calc calc' : ResultCalculator)
    (order : range_order) (res : ElectionResult) (i : nat) (a b : Candidate) :
  reachable calc ->
  admissible order ->
  Calculate calc order = (Some res, None, calc') ->
  delegates res !! i = Some a ->
  delegates res !! S i = Some b ->
  key_gt (score a) (priority (mintTime calc) a) (hex (name a))
         (score b) (priority (mintTime calc) b) (hex (name b)).
Proof.
  intros Hreach Hord. unfold Calculate.
  destruct (calculated calc); [discriminate|]. intros [= <- _]. simpl.
  rewrite delegates_entries by assumption. rewrite !lookup_map.
  destruct (rankedEntries calc order !! i) as [ea|] eqn:Ha; [|discriminate].
  destruct (rankedEntries calc order !! S i) as [eb|] eqn:Hb; [|discriminate].
  simpl. intros [= <-] [= <-].
  set (ts := timestampBytes (mintTime calc)).
  assert (Hs : Less (itemOf ts eb) (itemOf ts ea) = false).
  { apply (Sorted_neighbours
             (fun x y => Less (itemOf ts y) (itemOf ts x) = false)
             (rankedEntries calc order)) with (i := i); [|exact Ha|exact Hb].
    apply (Stable_sorted (fun x y => Less (itemOf ts x) (itemOf ts y))).
    intros x y. apply itemOf_less_asym. }
  assert (Hne : ea.1 <> eb.1).
  { intros Heq. pose proof (rankedEntries_NoDup calc order Hord) as Hnd.
    assert (H1 : map fst (rankedEntries calc order) !! i = Some ea.1)
      by now rewrite lookup_map, Ha.
    assert (H2 : map fst (rankedEntries calc order) !! S i = Some ea.1)
      by now rewrite lookup_map, Hb, Heq.
    pose proof (NoDup_lookup _ _ _ _ Hnd H1 H2). lia. }
  assert (Hlt : Less (itemOf ts ea) (itemOf ts eb) = true).
  { destruct (Less (itemOf ts ea) (itemOf ts eb)) eqn:E; [reflexivity|].
    exfalso. apply Hne. pose proof (Less_total _ _ E Hs) as Heq.
    now apply (f_equal Key) in Heq. }
  apply Less_spec in Hlt. simpl in Hlt.
  pose proof (reachable_keyedByHex calc Hreach) as Hk.
  assert (Hea : ea.1 = hex (name ea.2)).
  { apply Hk. apply (rankedEntries_elem calc order ea Hord).
    eapply list_elem_of_lookup_2; exact Ha. }
  assert (Heb : eb.1 = hex (name eb.2)).
  { apply Hk. apply (rankedEntries_elem calc order eb Hord).
    eapply list_elem_of_lookup_2; exact Hb. }
  unfold priority. fold ts. now rewrite <- Hea, <- Heb.
Qed.

Lemma ranking_order_independent calc order1 order2 :
  admissible order1 -> admissible order2 ->
  ranking calc order1 = ranking calc order2.
Proof.
  intros H1 H2.
  apply (Sorted_unique notAfter).
  - apply (Stable_sorted Less Less_asym).
  - apply (Stable_sorted Less Less_asym).
  - unfold ranking. rewrite !Stable_perm. unfold qualifierItems.
    apply Permutation_map, filter_perm.
    now rewrite (H1 (candidates calc)), (H2 (candidates calc)).
Qed.

Lemma Calculate_order_independent calc order1 order2 :
  admissible order1 -> admissible order2 ->
  Calculate calc order1 = Calculate calc order2.
Proof.
  intros H1 H2. unfold Calculate, filterAndSortCandidates.
  now rewrite (ranking_order_independent calc order1 order2 H1 H2).
Qed.

(** C3. Identical inputs (registrations and buckets in the same order,
    the same mint time, filters and score function) give the identical
    result, delegates in the same ranked order, whatever the order in
    which the candidate map is traversed. *)
Theorem election_is_deterministic (mint : Time) (skip : bool)
    (bf : Bucket -> bool) (cs : Bucket -> Time -> Z) (cf : Candidate -> bool)
    (regs : list Registration) (buckets : list Bucket)
    (order1 order2 : range_order) :
  admissible order1 ->
  admissible order2 ->
  election mint skip bf cs cf regs buckets order1
  = election mint skip bf cs cf regs buckets order2.
Proof.
  intros H1 H2. unfold election.
  destruct (AddRegistrations _ regs) as [[e|] calc]; [reflexivity|].
  destruct (AddBuckets calc buckets) as [[e|] calc2]; [reflexivity|].
  now rewrite (Calculate_order_independent calc2 order1 order2 H1 H2).
Qed.

Lemma twoCandidates_reachable : reachable Examples.twoCandidates.
Proof. apply reach_buckets, reach_registrations, reach_new. Qed.

Lemma map_to_list_admissible : admissible map_to_list.
Proof. intros m. reflexivity. Qed.

Lemma reverseOrder_admissible : admissible Examples.reverseOrder.
Proof. intros m. unfold Examples.reverseOrder. apply reverse_Permutation. Qed.

(** Scenario 1 of the spec: equal scores, the priorities decide. *)
Lemma delegates_strictly_ordered_witness :
  key_gt 100 (priority Examples.mint (NewCandidate Examples.regA 100 0)) "aa"
         100 (priority Examples.mint (NewCandidate Examples.regB 100 0)) "bb".
Proof.
  apply (delegates_strictly_ordered Examples.twoCandidates
           (finalize Examples.twoCandidates) map_to_list
           {| resMintTime := Examples.mint;
              delegates := [NewCandidate Examples.regA 100 0;
                            NewCandidate Examples.regB 100 0];
              votes := candidateVotes Examples.twoCandidates;
              resTotalVotedStakes := 200; resTotalVotes := 200 |}
           0 (NewCandidate Examples.regA 100 0) (NewCandidate Examples.regB 100 0)).
  - exact twoCandidates_reachable.
  - exact map_to_list_admissible.
  - vm_compute. reflexivity.
  - reflexivity.
  - reflexivity.
Defined.

Lemma election_is_deterministic_witness :
  election Examples.mint false Examples.noBucketFilter Examples.plainScore
    Examples.noCandidateFilter [Examples.regA; Examples.regB]
    [Examples.bucketFor [x05] [xaa] 0 100; Examples.bucketFor [x06] [xbb] 0 100]
    map_to_list
  = election Examples.mint false Examples.noBucketFilter Examples.plainScore
      Examples.noCandidateFilter [Examples.regA; Examples.regB]
      [Examples.bucketFor [x05] [xaa] 0 100; Examples.bucketFor [x06] [xbb] 0 100]
      Examples.reverseOrder.
Proof.
  apply (election_is_deterministic Examples.mint false Examples.noBucketFilter
           Examples.plainScore Examples.noCandidateFilter
           [Examples.regA; Examples.regB]
           [Examples.bucketFor [x05] [xaa] 0 100; Examples.bucketFor [x06] [xbb] 0 100]
           map_to_list Examples.reverseOrder).
  - exact map_to_list_admissible.
  - exact reverseOrder_admissible.
Defined.

(** ** The priority *)


(** C1, as the code has it: the ranking holds one item per qualifying
    candidate, and its priority is the hash priority of the ASCII bytes of
    the candidate's lowercase-hex name (the map key), not of the original
    name bytes. *)
Theorem qualifier_priority_hashes_hex_key (calc : ResultCalculator)
    (order : range_order) (it : item) :
  reachable calc ->
  admissible order ->
  it ∈ ranking calc order <->
  exists c,
    candidates calc !! hex (name c) = Some c /\
    candidateFilter calc c = false /\
    Key it = hex (name c) /\
    Value it = score c /\
    Some (Priority it) = hashPriority (bytes_of_string (hex (name c))) (mintTime calc).
Proof.
  intros Hreach Hord. pose proof (reachable_keyedByHex calc Hreach) as Hk.
  rewrite ranking_entries. rewrite list_elem_of_In, in_map_iff. split.
  - intros [[k c] [<- Hin]]. apply list_elem_of_In in Hin.
    apply (rankedEntries_elem calc order (k, c) Hord) in Hin as [Hc Hf]. simpl in *.
    pose proof (Hk _ _ Hc) as ->.
    exists c. repeat split; auto.
    unfold hashPriority. symmetry. apply priority_defined.
  - intros (c & Hc & Hf & Hkey & Hv & Hp).
    exists (hex (name c), c). split.
    + unfold hashPriority in Hp.
      change (util.Uint64ToBytes (wrap64 (Unix (mintTime calc))))
        with (timestampBytes (mintTime calc)) in Hp.
      rewrite priority_defined in Hp. injection Hp as Hp.
      destruct it; unfold itemOf; simpl in *. congruence.
    + apply list_elem_of_In. now apply (rankedEntries_elem calc order _ Hord).
Qed.

Lemma qualifier_priority_hashes_hex_key_witness :
  {| Key := "aa"; Value := 100; Priority := 10189138073054761193 |}
    ∈ ranking Examples.twoCandidates map_to_list <->
  exists c,
    candidates Examples.twoCandidates !! hex (name c) = Some c /\
    candidateFilter Examples.twoCandidates c = false /\
    Key {| Key := "aa"; Value := 100; Priority := 10189138073054761193 |} = hex (name c) /\
    Value {| Key := "aa"; Value := 100; Priority := 10189138073054761193 |} = score c /\
    Some (Priority {| Key := "aa"; Value := 100; Priority := 10189138073054761193 |})
    = hashPriority (bytes_of_string (hex (name c))) (mintTime Examples.twoCandidates).
Proof.
  apply (qualifier_priority_hashes_hex_key Examples.twoCandidates map_to_list
           {| Key := "aa"; Value := 100; Priority := 10189138073054761193 |}).
  - exact twoCandidates_reachable.
  - exact map_to_list_admissible.
Defined.

(** C1 as stated fails: for the candidate of name byte [0xaa] at mint time
    1_000_000 s the ranking carries the hash priority of the two ASCII
    bytes "aa", which is not the hash priority of the name byte itself. *)
Lemma priority_is_not_of_raw_name_bytes :
  let it := {| Key := "aa"; Value := 100; Priority := 10189138073054761193 |} in
  let c := NewCandidate Examples.regA 100 0 in
  it ∈ ranking Examples.twoCandidates map_to_list /\
  candidates Examples.twoCandidates !! Key it = Some c /\
  candidateFilter Examples.twoCandidates c = false /\
  name c = [xaa] /\
  hashPriority (name c) (mintTime Examples.twoCandidates) = Some 6429387997002876598 /\
  Some (Priority it) <> hashPriority (name c) (mintTime Examples.twoCandidates).
Proof.
  assert (Hr : ranking Examples.twoCandidates map_to_list
               = [ {| Key := "aa"; Value := 100; Priority := 10189138073054761193 |};
                   {| Key := "bb"; Value := 100; Priority := 3015355349607682617 |} ])
    by (vm_compute; reflexivity).
  assert (Hp : hashPriority [xaa] Examples.mint = Some 6429387997002876598)
    by (vm_compute; reflexivity).
  intros it c.
  split; [unfold it; rewrite Hr; left|].
  split; [vm_compute; reflexivity|].
  split; [reflexivity|].
  split; [reflexivity|].
  change (hashPriority (name c) (mintTime Examples.twoCandidates))
    with (hashPriority [xaa] Examples.mint).
  rewrite Hp. split; [reflexivity|discriminate].
Qed.

(** ** The sync engine *)

Import committee.

(** *** calcWeightedVotes *)

Lemma roundTo_exact p m e : BitLen m <= p -> roundTo p m e = (m, e).
Proof.
  intros Hb. unfold roundTo. destruct (BitLen m <=? p) eqn:E; [reflexivity|].
  apply Z.leb_gt in E. lia.
Qed.

(** Multiplying an integer set with [SetInt] by the float 1 and truncating
    gives the integer back: the product fits the precision [SetInt] chose. *)
Lemma weight_one_is_exact x :
  Int (Mul (prec (SetInt x)) (SetInt x) (NewFloat float64_one)) = x.
Proof.
  unfold Mul, SetInt, NewFloat, float64_one. simpl.
  rewrite roundTo_exact by (rewrite Z.mul_1_r; lia).
  unfold Int. simpl. lia.
Qed.

(** C8. For a vote of non-negative amount, [calcWeightedVotes] returns 0
    when [now] is before the start time, and the amount itself (weight 1)
    when the remaining time is zero, in particular at
    [now = startTime + duration]. *)
Theorem calcWeightedVotes_boundaries (lockWeight : Duration -> float64)
    (v : Vote) (now : Time) :
  0 <= Amount v ->
  (Before now (StartTime v) = true -> calcWeightedVotes lockWeight v now = 0) /\
  (Before now (StartTime v) = false -> RemainingTime v now = 0 ->
     calcWeightedVotes lockWeight v now = Amount v) /\
  (0 <= duration (bucket v) ->
     calcWeightedVotes lockWeight v (StartTime v + duration (bucket v)) = Amount v).
Proof.
  intros _. unfold calcWeightedVotes. repeat split.
  - intros ->. reflexivity.
  - intros -> ->. simpl. apply weight_one_is_exact.
  - intros Hd. unfold Before, RemainingTime, StartTime.
    destruct (_ <? _) eqn:E; [apply Z.ltb_lt in E; lia|].
    replace (Z.max 0 _) with 0 by lia. simpl. apply weight_one_is_exact.
Qed.

Lemma calcWeightedVotes_boundaries_witness :
  calcWeightedVotes (fun _ => float64_one)
    {| bucket := Examples.bucketFor [x05] [xaa] 1000 100; weighted := 0 |} 999 = 0 /\
  calcWeightedVotes (fun _ => float64_one)
    {| bucket := Examples.bucketFor [x05] [xaa] 1000 100; weighted := 0 |}
    (1000 + 86400000000000) = 100.
Proof.
  destruct (calcWeightedVotes_boundaries (fun _ => float64_one)
              {| bucket := Examples.bucketFor [x05] [xaa] 1000 100; weighted := 0 |} 999)
    as (Hbefore & _ & Hend).
  - unfold Amount. simpl. lia.
  - split.
    + apply Hbefore. reflexivity.
    + apply Hend. simpl. lia.
Defined.

(** *** retryFetchResultByHeight *)

Section EngineFacts.
Context `{Backend}.

(** C9. With a retry limit of 0 the loop body never runs: no fetch is
    made, the outside world is untouched, and the call returns the nil
    result with the nil error.  A fetch that succeeds returns the nil
    error too, so the error alone does not tell the two apart. *)
Theorem retry_limit_zero_returns_nil_nil (World : Type)
    (fetch : World -> Z -> World * option ElectionResult * option error)
    (ec : committee) (w : World) (height : Z) :
  retryLimit ec = 0 ->
  retryFetchResultByHeight World fetch ec w height = (w, None, None, 0%nat) /\
  forall (n : nat) w' r,
    fetch w height = (w', Some r, None) ->
    retryLoop World fetch (S n) w height None None = (w', Some r, None, 1%nat).
Proof.
  intros Hl. split.
  - unfold retryFetchResultByHeight. rewrite Hl. reflexivity.
  - intros n w' r Hf. simpl. rewrite Hf. reflexivity.
Qed.

(** *** storeInBatch *)

Lemma storeResult_ok ec h r ec' :
  storeResult ec h r = (None, ec') ->
  heights (heightMgr ec') = heights (heightMgr ec) ++ [h] /\
  interval ec' = interval ec /\ nextHeight ec' = nextHeight ec.
Proof.
  unfold storeResult. destruct (Serialize r); [discriminate|].
  destruct (db_Put _ _ _) as [[e|] d]; [discriminate|]. simpl.
  destruct (db_Put _ _ _) as [[e|] d']; [discriminate|]. simpl.
  unfold hm_add. destruct (hm_validate _ _ _); [discriminate|].
  intros [= <-]. simpl. auto.
Qed.

Lemma storeResult_err ec h r e ec' :
  storeResult ec h r = (Some e, ec') ->
  heightMgr ec' = heightMgr ec /\
  interval ec' = interval ec /\ nextHeight ec' = nextHeight ec.
Proof.
  unfold storeResult. destruct (Serialize r); [now intros [= _ <-]|].
  destruct (db_Put _ _ _) as [[e1|] d]; [now intros [= _ <-]|]. simpl.
  destruct (db_Put _ _ _) as [[e2|] d']; [now intros [= _ <-]|]. simpl.
  unfold hm_add. destruct (hm_validate _ _ _); [now intros [= _ <-]|discriminate].
Qed.

(** After a height has passed [validate], the [add] that ends
    [storeResult] cannot fail, nothing touching the height manager in
    between: a failing [storeResult] failed in the serialisation or in the
    store, before the cache was written. *)
Lemma storeResult_fails_before_add ec h r e ec' :
  hm_validate (heightMgr ec) h (resMintTime r) = None ->
  storeResult ec h r = (Some e, ec') ->
  cache ec' = cache ec.
Proof.
  intros Hv. unfold storeResult. destruct (Serialize r) as [e0|data].
  { now intros [= _ <-]. }
  destruct (db_Put _ _ _) as [[e1|] d]; [now intros [= _ <-]|].
  simpl. destruct (db_Put _ _ _) as [[e2|] d']; [now intros [= _ <-]|].
  simpl. unfold hm_add. rewrite Hv. discriminate.
Qed.

Ltac loop_step Hrun :=
  simpl in Hrun;
  match type of Hrun with
  | context [errAt ?errs ?h] => destruct (errAt errs h) as [?e|] eqn:?Herr
  end;
  [|match type of Hrun with
    | context [resultAt ?rs ?h] => destruct (resultAt rs h) as [?r|] eqn:?Hres
    end;
    [match type of Hrun with
     | context [hm_validate ?m ?h ?t] => destruct (hm_validate m h t) eqn:?Hval
     end;
     [|match type of Hrun with
       | context [storeResult ?ec ?h ?r] =>
           destruct (storeResult ec h r) as [[?e|] ?ec1] eqn:?Hstore
       end;
       [|match type of Hrun with
         | context [storeLoop ?ec ?rs ?es ?l] =>
             destruct (storeLoop ec rs es l) as [[?o2 ?ec2] ?st2] eqn:?Hrest
         end]]
    |]].


Lemma storeLoop_facts results errs hs : forall ec o ec' st,
  storeLoop ec results errs hs = (o, ec', st) ->
  st `prefix_of` hs /\
  (o = None -> st = hs) /\
  (o <> None -> (length st < length hs)%nat) /\
  o <> Some (Returned None) /\
  (forall s, s ∈ st -> errAt errs s = None) /\
  heights (heightMgr ec') = heights (heightMgr ec) ++ st /\
  interval ec' = interval ec /\
  nextHeight ec' =
    from_option (fun h => wrap64 (h + interval ec)) (nextHeight ec) (last st).
Proof.
  induction hs as [|h hs IH]; intros ec o ec' st Hrun.
  { simpl in Hrun. injection Hrun as <- <- <-. simpl.
    rewrite app_nil_r. repeat split; auto; try done.
    intros s Hs. inversion Hs. }
  loop_step Hrun.
  - injection Hrun as <- <- <-. simpl. rewrite app_nil_r.
    repeat split; auto; try done.
    + apply prefix_nil.
    + intros _. lia.
    + intros s Hs. inversion Hs.
  - injection Hrun as <- <- <-. simpl. rewrite app_nil_r.
    repeat split; auto; try done.
    + apply prefix_nil.
    + intros _. lia.
    + intros s Hs. inversion Hs.
  - injection Hrun as <- <- <-. simpl.
    apply storeResult_err in Hstore as (Hm & Hi & Hn). rewrite Hm, app_nil_r.
    repeat split; auto; try done.
    + apply prefix_nil.
    + intros _. lia.
    + intros s Hs. inversion Hs.
  - injection Hrun as <- <- <-.
    apply storeResult_ok in Hstore as (Hm & Hi & Hn).
    apply IH in Hrest as (Hp & Hdone & Hstop & Hnil & Hno & Hh & Hint & Hnext).
    simpl in Hh, Hint, Hnext.
    repeat split; auto.
    + now apply prefix_cons.
    + intros Ho. f_equal. auto.
    + intros Ho. simpl. specialize (Hstop Ho). lia.
    + intros s Hs. apply elem_of_cons in Hs as [->|Hs]; auto.
    + rewrite Hh, Hm, <- app_assoc. reflexivity.
    + congruence.
    + rewrite Hnext, Hi. destruct st2 as [|s st2]; [reflexivity|].
      rewrite last_cons_cons.
      destruct (last (s :: st2)) eqn:E; [reflexivity|].
      apply last_None in E. discriminate.
  - injection Hrun as <- <- <-. simpl. rewrite app_nil_r.
    repeat split; auto; try done.
    + apply prefix_nil.
    + intros _. lia.
    + intros s Hs. inversion Hs.
Qed.
End EngineFacts.


Section StoreInBatchFacts.
Context `{Backend}.


(** The sorted slice is the same for every order in which the keys are
    gathered. *)
Lemma sortedHeights_order (keys1 keys2 : list Z) :
  keys1 ≡ₚ keys2 -> sortedHeights keys1 = sortedHeights keys2.
Proof.
  intros Hp. unfold sortedHeights. apply (Sorted_unique Z.le).
  - apply Sorted_merge_sort. apply _.
  - apply Sorted_merge_sort. apply _.
  - now rewrite !merge_sort_Permutation.
Qed.


End StoreInBatchFacts.


Example storeInBatch_scenario :
  Examples.batchRun.1.1 = Returned (Some (ErrorOf "timeout")) /\
  Examples.batchRun.2 = [100; 110] /\
  nextHeight Examples.batchRun.1.2 = 120 /\
  batchHeights Examples.batchResults = [100; 110; 120].
Proof. vm_compute. repeat split. Qed.

Lemma retry_limit_zero_returns_nil_nil_witness :
  retryFetchResultByHeight nat Examples.failingFetch (Examples.engine 0) 0%nat 100
    = (0%nat, None, None, 0%nat) /\
  forall (n : nat) w' r,
    Examples.failingFetch 0%nat 100 = (w', Some r, None) ->
    retryLoop nat Examples.failingFetch (S n) 0%nat 100 None None
    = (w', Some r, None, 1%nat).
Proof.
  apply (@retry_limit_zero_returns_nil_nil Examples.memBackend nat
           Examples.failingFetch (Examples.engine 0) 0%nat 100).
  reflexivity.
Defined.

(** With a positive limit the same client is asked that many times and
    its last error comes back. *)
Example retry_limit_three :
  retryFetchResultByHeight nat Examples.failingFetch (Examples.engine 3) 0%nat 100
  = (3%nat, None, Some (ErrorOf "unreachable"), 3%nat).
Proof. reflexivity. Qed.


(** * Further properties of the code *)

(** ** util: the little-endian codec *)

Lemma byte_to_Z_range b : 0 <= byte_to_Z b < 256.
Proof.
  unfold byte_to_Z. pose proof (Byte.to_N_bounded b). lia.
Qed.

Lemma byte_to_of_Z z : byte_to_Z (byte_of_Z z) = z mod 256.
Proof.
  unfold byte_of_Z, byte_to_Z.
  assert (Hr : 0 <= z mod 256 < 256) by (apply Z.mod_pos_bound; lia).
  destruct (Byte.of_N (Z.to_N (z mod 256))) as [b|] eqn:E.
  - apply Byte.to_of_N in E. rewrite E. lia.
  - apply Byte.of_N_None_iff in E. lia.
Qed.

Lemma byte_of_to_Z b : byte_of_Z (byte_to_Z b) = b.
Proof.
  unfold byte_of_Z. rewrite Z.mod_small by apply byte_to_Z_range.
  unfold byte_to_Z. rewrite N2Z.id, Byte.of_to_N. reflexivity.
Qed.

(** A byte and a value shifted past it do not overlap. *)
Lemma lor_low_byte x y :
  0 <= x < 256 -> 0 <= y -> Z.lor x (Z.shiftl y 8) = x + 256 * y.
Proof.
  intros Hx Hy.
  assert (Hland : Z.land x (Z.shiftl y 8) = 0).
  { apply Z.bits_inj'. intros n Hn. rewrite Z.land_spec, Z.bits_0.
    destruct (Z.lt_ge_cases n 8) as [Hlt|Hge].
    - rewrite (Z.shiftl_spec_low y 8 n Hlt). apply andb_false_r.
    - replace x with (x mod 2 ^ 8) by (apply Z.mod_small; lia).
      rewrite Z.mod_pow2_bits_high by lia. reflexivity. }
  rewrite <- Z.lxor_lor by exact Hland.
  rewrite <- Z.add_nocarry_lxor by exact Hland.
  rewrite Z.shiftl_mul_pow2 by lia. lia.
Qed.

Lemma le_value_nonneg b : 0 <= le_value b.
Proof.
  induction b as [|x r IH]; simpl; [lia|].
  rewrite lor_low_byte by (auto using byte_to_Z_range).
  pose proof (byte_to_Z_range x). lia.
Qed.

Lemma le_value_cons x r : le_value (x :: r) = byte_to_Z x + 256 * le_value r.
Proof.
  simpl. apply lor_low_byte; [apply byte_to_Z_range|apply le_value_nonneg].
Qed.

Lemma le_value_bound b : le_value b < 2 ^ (8 * Z.of_nat (length b)).
Proof.
  induction b as [|x r IH]; [simpl; lia|].
  rewrite le_value_cons. pose proof (byte_to_Z_range x).
  replace (8 * Z.of_nat (length (x :: r))) with (8 + 8 * Z.of_nat (length r))
    by (simpl length; lia).
  rewrite Z.pow_add_r by lia. change (2 ^ 8) with 256. lia.
Qed.

(** The bytes [k .. k+n-1] of the little-endian form of [u]. *)
Lemma le_value_bytes_of (u : Z) (n k : nat) :
  0 <= u ->
  le_value (map (fun i : nat => byte_of_Z (Z.land (Z.shiftr u (8 * Z.of_nat i)) 255))
              (seq k n))
  = (u / 2 ^ (8 * Z.of_nat k)) mod 2 ^ (8 * Z.of_nat n).
Proof.
  intros Hu. revert k. induction n as [|n IH]; intros k.
  { simpl. now rewrite Z.mod_1_r. }
  cbn [seq map]. rewrite le_value_cons, IH, byte_to_of_Z.
  change 255 with (Z.ones 8). rewrite Z.land_ones by lia.
  rewrite Z.mod_mod by lia. rewrite Z.shiftr_div_pow2 by lia.
  replace (8 * Z.of_nat (S k)) with (8 * Z.of_nat k + 8) by lia.
  rewrite Z.pow_add_r by lia.
  rewrite <- Z.div_div by lia.
  set (a := u / 2 ^ (8 * Z.of_nat k)).
  replace (8 * Z.of_nat (S n)) with (8 + 8 * Z.of_nat n) by lia.
  rewrite Z.pow_add_r by lia. change (2 ^ 8) with 256.
  rewrite (Z.rem_mul_r a 256) by lia. reflexivity.
Qed.

Lemma le_uint64_le_put64 (u : Z) :
  0 <= u < 2 ^ 64 -> le_uint64 (le_put64 u) = Some u.
Proof.
  intros Hu. unfold le_uint64.
  rewrite le_put64_length. simpl Nat.ltb. cbv iota.
  rewrite firstn_all2 by (rewrite le_put64_length; lia).
  unfold le_put64. rewrite le_value_bytes_of by lia.
  simpl Z.of_nat. rewrite Z.mul_0_r, Z.pow_0_r, Z.div_1_r.
  change (8 * 8) with 64. rewrite Z.mod_small by lia. reflexivity.
Qed.

(** X1. Encoding an unsigned 64-bit value and decoding it gives the value
    back; the encoding has eight bytes. *)
Theorem BytesToUint64_Uint64ToBytes (u : Z) :
  0 <= u < 2 ^ 64 ->
  length (util.Uint64ToBytes u) = 8%nat /\
  util.BytesToUint64 (util.Uint64ToBytes u) = Some u.
Proof.
  intros Hu. split; [reflexivity|]. now apply le_uint64_le_put64.
Qed.

Lemma BytesToUint64_Uint64ToBytes_witness :
  length (util.Uint64ToBytes 1000000) = 8%nat /\
  util.BytesToUint64 (util.Uint64ToBytes 1000000) = Some 1000000.
Proof. apply (BytesToUint64_Uint64ToBytes 1000000). lia. Defined.

Lemma le_put64_le_value (l : list byte) :
  map (fun i : nat => byte_of_Z (Z.land (Z.shiftr (le_value l) (8 * Z.of_nat i)) 255))
    (seq 0 (length l)) = l.
Proof.
  induction l as [|x r IH]; [reflexivity|].
  simpl length. rewrite <- cons_seq, <- seq_shift. cbn [map]. rewrite map_map.
  pose proof (byte_to_Z_range x) as Hx. pose proof (le_value_nonneg r) as Hr.
  rewrite le_value_cons.
  assert (Hmod : (byte_to_Z x + 256 * le_value r) mod 256 = byte_to_Z x)
    by (Z.div_mod_to_equations; lia).
  assert (Hdiv : (byte_to_Z x + 256 * le_value r) / 256 = le_value r)
    by (Z.div_mod_to_equations; lia).
  f_equal.
  - simpl Z.of_nat. rewrite Z.mul_0_r, Z.shiftr_0_r.
    change 255 with (Z.ones 8). rewrite Z.land_ones by lia.
    change (2 ^ 8) with 256. rewrite Hmod. apply byte_of_to_Z.
  - rewrite <- IH at 2. apply map_ext. intros i.
    replace (8 * Z.of_nat (S i)) with (8 + 8 * Z.of_nat i) by lia.
    rewrite <- Z.shiftr_shiftr by lia. rewrite (Z.shiftr_div_pow2 _ 8) by lia.
    change (2 ^ 8) with 256. rewrite Hdiv. reflexivity.
Qed.

(** X2. [BytesToUint64] fails (the bounds check of the library panics) on
    fewer than eight bytes; on eight or more it reads the first eight
    only, the value is below 2^64, and encoding it gives those eight
    bytes back. *)
Theorem BytesToUint64_reads_first_eight (b : list byte) :
  ((length b < 8)%nat -> util.BytesToUint64 b = None) /\
  ((8 <= length b)%nat ->
     exists v, util.BytesToUint64 b = Some v /\
               0 <= v < 2 ^ 64 /\
               util.BytesToUint64 (take 8 b) = Some v /\
               util.Uint64ToBytes v = take 8 b).
Proof.
  unfold util.BytesToUint64, le_uint64. split.
  - intros Hl. apply Nat.ltb_lt in Hl. now rewrite Hl.
  - intros Hl. assert (Hlen : length (take 8 b) = 8%nat) by (rewrite length_take; lia).
    destruct (length b <? 8)%nat eqn:E; [apply Nat.ltb_lt in E; lia|].
    exists (le_value (take 8 b)). split; [reflexivity|]. split.
    + pose proof (le_value_nonneg (take 8 b)). pose proof (le_value_bound (take 8 b)) as Hb.
      rewrite Hlen in Hb. change (8 * Z.of_nat 8) with 64 in Hb. lia.
    + split.
      * rewrite Hlen. simpl Nat.ltb. cbv iota. now rewrite take_take.
      * unfold util.Uint64ToBytes, le_put64.
        pose proof (le_put64_le_value (take 8 b)) as Hrt. now rewrite Hlen in Hrt.
Qed.

Lemma BytesToUint64_reads_first_eight_witness :
  util.BytesToUint64 [x01; x02; x03] = None /\
  exists v, util.BytesToUint64 [x01; x00; x00; x00; x00; x00; x00; x00; xff] = Some v /\
            0 <= v < 2 ^ 64 /\
            util.BytesToUint64 (take 8 [x01; x00; x00; x00; x00; x00; x00; x00; xff]) = Some v /\
            util.Uint64ToBytes v = take 8 [x01; x00; x00; x00; x00; x00; x00; x00; xff].
Proof.
  split.
  - apply (BytesToUint64_reads_first_eight [x01; x02; x03]). simpl. lia.
  - apply (BytesToUint64_reads_first_eight
             [x01; x00; x00; x00; x00; x00; x00; x00; xff]). simpl. lia.
Defined.

(** X3. [dbKey] is injective on unsigned 64-bit heights: two different
    heights never share a key of the store. *)
Theorem dbKey_injective (h1 h2 : Z) :
  0 <= h1 < 2 ^ 64 -> 0 <= h2 < 2 ^ 64 -> h1 <> h2 ->
  committee.dbKey h1 <> committee.dbKey h2.
Proof.
  intros H1 H2 Hne Heq. apply Hne. unfold committee.dbKey in Heq.
  pose proof (le_uint64_le_put64 h1 H1) as E1.
  pose proof (le_uint64_le_put64 h2 H2) as E2.
  unfold util.Uint64ToBytes in Heq. rewrite Heq in E1. congruence.
Qed.

Lemma dbKey_injective_witness : committee.dbKey 100 <> committee.dbKey 110.
Proof. apply (dbKey_injective 100 110); lia. Defined.

(** ** util: IsAllZeros, and the hex form of names *)

Lemma IsAllZeros_replicate (b : list byte) :
  util.IsAllZeros b = true <-> b = replicate (length b) x00.
Proof.
  induction b as [|v r IH]; simpl; [tauto|].
  destruct (Byte.eqb v x00) eqn:E.
  - apply Byte.byte_dec_bl in E. subst v. rewrite IH. split; [congruence|].
    intros [= Hr]. exact Hr.
  - split; [discriminate|]. intros [= -> _]. now rewrite (Byte.byte_dec_lb eq_refl) in E.
Qed.

(** X4. [IsAllZeros] holds exactly for the slices made of zero bytes only,
    the empty slice among them. *)
Theorem IsAllZeros_iff (b : list byte) :
  util.IsAllZeros b = true <-> b = replicate (length b) x00.
Proof. apply IsAllZeros_replicate. Qed.

Lemma hex_byte_round_trip (b : byte) :
  byte_of_Z (16 * fromHexChar (hexdigit (Z.shiftr (byte_to_Z b) 4))
             + fromHexChar (hexdigit (Z.land (byte_to_Z b) 15))) = b.
Proof. destruct b; vm_compute; reflexivity. Qed.

Lemma hex_inj (n1 n2 : list byte) : hex n1 = hex n2 -> n1 = n2.
Proof.
  unfold hex. revert n2. induction n1 as [|b1 r1 IH]; intros [|b2 r2]; simpl;
    try discriminate; [reflexivity|].
  intros [= Hh Hl Hr]. f_equal; [|now apply IH].
  rewrite <- (hex_byte_round_trip b1), <- (hex_byte_round_trip b2).
  now rewrite Hh, Hl.
Qed.

(** X5. The hex form has two characters per byte, and two names have the
    same hex form exactly when they are the same bytes: the candidate
    map, keyed by the hex form, keeps one entry per name. *)
Theorem hex_injective (n1 n2 : list byte) :
  String.length (hex n1) = (2 * length n1)%nat /\
  (hex n1 = hex n2 <-> n1 = n2).
Proof.
  split.
  - unfold hex. induction n1 as [|b r IH]; simpl; [reflexivity|]. rewrite IH. lia.
  - split; [apply hex_inj|now intros ->].
Qed.

(** X6. The reserved-name test of [AddBuckets] (hex form equal to
    [candidateZero]) holds for the name of twelve zero bytes and for no
    other name: zero names of another length are ordinary names. *)
Theorem reserved_name_is_twelve_zero_bytes (nm : list byte) :
  (strings_Compare (hex nm) candidateZero =? 0) = true <->
  length nm = 12%nat /\ util.IsAllZeros nm = true.
Proof.
  rewrite strings_Compare_eq, IsAllZeros_replicate. split.
  - intros Hh. change candidateZero with (hex (replicate 12 x00)) in Hh.
    apply hex_inj in Hh. subst nm. split; reflexivity.
  - intros [Hl Hz]. rewrite Hz, Hl. reflexivity.
Qed.

(** ** types: the calculator *)

(** X7. [itemList.Less] is a strict total order on items: no item is
    before itself, the relation is transitive and asymmetric, and of two
    different items one is before the other. *)
Theorem Less_strict_total_order (a b c : item) :
  Less a a = false /\
  (Less a b = true -> Less b c = true -> Less a c = true) /\
  (Less a b = true -> Less b a = false) /\
  (a <> b -> Less a b = true \/ Less b a = true).
Proof.
  split; [apply Less_irrefl|]. split; [apply Less_trans|]. split; [apply Less_asym|].
  intros Hne. destruct (Less a b) eqn:Hab; [now left|].
  destruct (Less b a) eqn:Hba; [now right|].
  exfalso. apply Hne. now apply Less_total.
Qed.

Lemma addRegistrations_loop_frame l : forall calc,
  let calc' := (addRegistrations_loop calc l).2 in
  calculated calc' = calculated calc /\ totalVotes calc' = totalVotes calc /\
  totalVotedStakes calc' = totalVotedStakes calc /\
  skipManified calc' = skipManified calc /\ mintTime calc' = mintTime calc.
Proof.
  induction l as [|r rest IH]; intros calc; simpl; [auto|].
  destruct (candidates calc !! hex (rName r)); [simpl; auto|].
  destruct ((rSelfStakingWeight r >? 1) && skipManified calc); [apply IH|].
  destruct (IH (register calc (hex (rName r)) (NewCandidate r 0 0)))
    as (? & ? & ? & ? & ?). simpl in *. auto.
Qed.

Lemma addRegistrations_loop_app l1 : forall calc l2,
  addRegistrations_loop calc (l1 ++ l2) =
  match addRegistrations_loop calc l1 with
  | (None, calc') => addRegistrations_loop calc' l2
  | r => r
  end.
Proof.
  induction l1 as [|r rest IH]; intros calc l2; simpl; [reflexivity|].
  destruct (candidates calc !! hex (rName r)); [reflexivity|].
  destruct ((rSelfStakingWeight r >? 1) && skipManified calc); apply IH.
Qed.

Lemma addBucket_calculated calc b :
  match addBucket calc b with
  | inl (_, calc') => calculated calc' = calculated calc
  | inr calc' => calculated calc' = calculated calc
  end.
Proof.
  unfold addBucket. destruct (bucketFilter calc b); [reflexivity|].
  destruct (candidate b) as [nm|]; [|reflexivity].
  destruct (_ =? 0); [reflexivity|].
  destruct (candidates calc !! hex nm) as [cand|]; [|reflexivity].
  destruct (selfVote cand b _ _) as [e|[[amt sc] cand1]]; [reflexivity|].
  destruct (NewVote b sc); [reflexivity|].
  destruct (addScore cand1 sc); reflexivity.
Qed.

Lemma addBuckets_loop_calculated l : forall calc,
  calculated (addBuckets_loop calc l).2 = calculated calc.
Proof.
  induction l as [|b rest IH]; intros calc; simpl; [reflexivity|].
  pose proof (addBucket_calculated calc b) as Hb.
  destruct (addBucket calc b) as [[e calc']|calc']; [exact Hb|].
  rewrite IH. exact Hb.
Qed.

(** X8. Handing the registrations, or the buckets, over in two calls is
    the same as handing them over in one: the second call continues where
    the first ended, unless the first returned an error. *)
Theorem mutators_compose (calc : ResultCalculator) :
  (forall l1 l2 : list Registration,
     AddRegistrations calc (l1 ++ l2) =
     match AddRegistrations calc l1 with
     | (None, calc') => AddRegistrations calc' l2
     | r => r
     end) /\
  (forall l1 l2 : list Bucket,
     AddBuckets calc (l1 ++ l2) =
     match AddBuckets calc l1 with
     | (None, calc') => AddBuckets calc' l2
     | r => r
     end).
Proof.
  split; intros l1 l2.
  - unfold AddRegistrations. destruct (calculated calc) eqn:Hc; [reflexivity|].
    destruct (totalVotes calc >? 0) eqn:Hv; [reflexivity|].
    rewrite addRegistrations_loop_app.
    pose proof (addRegistrations_loop_frame l1 calc) as (Hc' & Hv' & _).
    destruct (addRegistrations_loop calc l1) as [[e|] calc']; [reflexivity|].
    simpl in Hc', Hv'. now rewrite Hc', Hv', Hc, Hv.
  - unfold AddBuckets. destruct (calculated calc) eqn:Hc; [reflexivity|].
    rewrite addBuckets_loop_app.
    pose proof (addBuckets_loop_calculated l1 calc) as Hc'.
    destruct (addBuckets_loop calc l1) as [[e|] calc']; [reflexivity|].
    simpl in Hc'. now rewrite Hc', Hc.
Qed.

Lemma addRegistrations_loop_fresh (regs : list Registration) : forall calc,
  NoDup (map (fun r => hex (rName r)) regs) ->
  (forall r, r ∈ regs -> candidates calc !! hex (rName r) = None) ->
  exists calc',
    addRegistrations_loop calc regs = (None, calc') /\
    (forall r, r ∈ regs ->
       candidates calc' !! hex (rName r)
       = if skipped calc r then None else Some (NewCandidate r 0 0)) /\
    (forall k, k ∉ map (fun r => hex (rName r)) regs ->
       candidates calc' !! k = candidates calc !! k).
Proof.
  induction regs as [|r rest IH]; intros calc Hnd Hfresh.
  { exists calc. split; [reflexivity|]. split; [|reflexivity].
    intros r Hr. inversion Hr. }
  cbn [map] in Hnd. apply NoDup_cons in Hnd as [Hr Hnd]. simpl.
  rewrite (Hfresh r) by (now left).
  assert (Hrest : forall r', r' ∈ rest -> hex (rName r') <> hex (rName r)).
  { intros r' Hin Heq. apply Hr. rewrite <- Heq.
    apply list_elem_of_In. apply (in_map (fun r0 => hex (rName r0))).
    now apply list_elem_of_In. }
  destruct ((rSelfStakingWeight r >? 1) && skipManified calc) eqn:Hskip.
  - destruct (IH calc Hnd) as (calc' & Hrun & Hin & Hout).
    { intros r' Hr'. apply Hfresh. now right. }
    exists calc'. split; [exact Hrun|]. split.
    + intros r' Hr'. apply elem_of_cons in Hr' as [->|Hr']; [|now apply Hin].
      unfold skipped. rewrite Hskip, (Hout _ Hr). apply Hfresh. now left.
    + intros k Hk. apply Hout. intros Hin'. apply Hk. now right.
  - destruct (IH (register calc (hex (rName r)) (NewCandidate r 0 0)) Hnd)
      as (calc' & Hrun & Hin & Hout).
    { intros r' Hr'. simpl. rewrite lookup_insert_ne by (apply not_eq_sym; auto).
      apply Hfresh. now right. }
    exists calc'. split; [exact Hrun|]. split.
    + intros r' Hr'. apply elem_of_cons in Hr' as [->|Hr']; [|now apply Hin].
      unfold skipped. rewrite Hskip, (Hout _ Hr). simpl. apply lookup_insert_eq.
    + intros k Hk. rewrite Hout by (intros Hin'; apply Hk; now right).
      simpl. apply lookup_insert_ne. intros <-. apply Hk. now left.
Qed.

(** X9. On a calculator that is not calculated and whose [totalVotes] is
    not positive, registrations with pairwise different names, none of
    them in the map yet, are all accepted: the call returns nil, each one
    is in the map as a new candidate with score and tokens 0, unless it
    is passed over as manified, and the other keys are as before. *)
Theorem AddRegistrations_fresh_names (calc : ResultCalculator)
    (regs : list Registration) :
  calculated calc = false ->
  totalVotes calc <= 0 ->
  NoDup (map rName regs) ->
  (forall r, r ∈ regs -> candidates calc !! hex (rName r) = None) ->
  exists calc',
    AddRegistrations calc regs = (None, calc') /\
    (forall r, r ∈ regs ->
       candidates calc' !! hex (rName r)
       = if skipped calc r then None else Some (NewCandidate r 0 0)) /\
    (forall k, k ∉ map (fun r => hex (rName r)) regs ->
       candidates calc' !! k = candidates calc !! k).
Proof.
  intros Hc Hv Hnd Hfresh. unfold AddRegistrations. rewrite Hc.
  destruct (totalVotes calc >? 0) eqn:E.
  { rewrite Z.gtb_ltb in E. apply Z.ltb_lt in E. lia. }
  apply addRegistrations_loop_fresh; [|exact Hfresh].
  assert (Hinj : Inj (=) (=) hex)
    by (intros n1 n2 Hh; now apply hex_inj).
  rewrite <- (map_map rName hex). exact (NoDup_fmap_2 hex _ Hnd).
Qed.

Lemma AddRegistrations_fresh_names_witness :
  exists calc',
    AddRegistrations (Examples.fresh true) [Examples.regA; Examples.regM] = (None, calc') /\
    (forall r, r ∈ [Examples.regA; Examples.regM] ->
       candidates calc' !! hex (rName r)
       = if skipped (Examples.fresh true) r then None else Some (NewCandidate r 0 0)) /\
    (forall k, k ∉ map (fun r => hex (rName r)) [Examples.regA; Examples.regM] ->
       candidates calc' !! k = candidates (Examples.fresh true) !! k).
Proof.
  apply (AddRegistrations_fresh_names (Examples.fresh true)
           [Examples.regA; Examples.regM]).
  - reflexivity.
  - simpl. lia.
  - apply NoDup_cons. split; [|apply NoDup_singleton].
    intros Hin. apply list_elem_of_singleton in Hin. discriminate.
  - intros r _. reflexivity.
Defined.

(** ** types: what the calculator keeps true *)


Lemma sumWeighted_snoc vs v : sumWeighted (vs ++ [v]) = sumWeighted vs + weighted v.
Proof.
  unfold sumWeighted. induction vs as [|x vs IH]; simpl; [lia|]. rewrite IH. lia.
Qed.

Lemma selfVote_score cand b amt sc amt' sc' cand' :
  selfVote cand b amt sc = inr (amt', sc', cand') -> score cand' = score cand.
Proof.
  unfold selfVote, addSelfStakingTokens.
  destruct (bytes_Equal _ _); [|now intros [= _ _ <-]].
  destruct (_ <? 0); [discriminate|]. now intros [= _ _ <-].
Qed.

Lemma with_candidate_scoresMatchVotes calc k c c' :
  scoresMatchVotes calc -> candidates calc !! k = Some c -> score c' = score c ->
  scoresMatchVotes (with_candidate calc k c').
Proof.
  intros Hinv Hc Hs k'. specialize (Hinv k'). simpl. rewrite lookup_insert.
  case_decide as Hd; [|exact Hinv]. subst k'. rewrite Hc in Hinv.
  destruct (candidateVotes calc !! k); [congruence|exact Hinv].
Qed.

Lemma addRegistrations_loop_scoresMatchVotes l : forall calc,
  scoresMatchVotes calc -> scoresMatchVotes (addRegistrations_loop calc l).2.
Proof.
  induction l as [|r rest IH]; intros calc Hinv; simpl; [exact Hinv|].
  destruct (candidates calc !! hex (rName r)); [exact Hinv|].
  destruct ((rSelfStakingWeight r >? 1) && skipManified calc); [now apply IH|].
  apply IH. intros k. specialize (Hinv k). simpl. rewrite !lookup_insert.
  case_decide; [reflexivity|exact Hinv].
Qed.

Lemma addBucket_scoresMatchVotes calc b :
  scoresMatchVotes calc ->
  match addBucket calc b with
  | inl (_, calc') => scoresMatchVotes calc'
  | inr calc' => scoresMatchVotes calc'
  end.
Proof.
  intros Hinv. unfold addBucket.
  destruct (bucketFilter calc b); [exact Hinv|].
  destruct (candidate b) as [nm|]; [|exact Hinv].
  destruct (_ =? 0); [exact Hinv|].
  destruct (candidates calc !! hex nm) as [cand|] eqn:Hc; [|exact Hinv].
  destruct (selfVote cand b _ _) as [e|[[amt sc] cand1]] eqn:Hs; [exact Hinv|].
  apply selfVote_score in Hs.
  pose proof (with_candidate_scoresMatchVotes calc (hex nm) cand cand1 Hinv Hc Hs) as H1.
  unfold NewVote. destruct (sc <? 0) eqn:Hneg; [exact H1|].
  unfold addScore. rewrite Hneg.
  intros k. specialize (Hinv k). simpl. rewrite insert_insert_eq, !lookup_insert.
  case_decide as Hd; [|exact Hinv]. subst k. rewrite Hc in Hinv.
  destruct (candidateVotes calc !! hex nm) as [vs|]; [|contradiction].
  simpl. rewrite sumWeighted_snoc. simpl. lia.
Qed.

Lemma addBuckets_loop_scoresMatchVotes l : forall calc,
  scoresMatchVotes calc -> scoresMatchVotes (addBuckets_loop calc l).2.
Proof.
  induction l as [|b rest IH]; intros calc Hinv; simpl; [exact Hinv|].
  pose proof (addBucket_scoresMatchVotes calc b Hinv) as Hb.
  destruct (addBucket calc b) as [[e calc']|calc']; [exact Hb|now apply IH].
Qed.

Lemma reachable_scoresMatchVotes calc : reachable calc -> scoresMatchVotes calc.
Proof.
  induction 1 as [mint skip bf cs cf|calc l _ IH|calc l _ IH].
  - intros k. simpl. now rewrite !lookup_empty.
  - unfold AddRegistrations. destruct (calculated calc); [exact IH|].
    destruct (totalVotes calc >? 0); [exact IH|].
    now apply addRegistrations_loop_scoresMatchVotes.
  - unfold AddBuckets. destruct (calculated calc); [exact IH|].
    now apply addBuckets_loop_scoresMatchVotes.
Qed.

(** X10. In every calculator built by the two mutators, also after a call
    that returned an error, the candidates and the vote lists have the
    same keys, and the score of each candidate is the sum of the weighted
    scores of the votes recorded for it. *)
Theorem score_is_sum_of_recorded_votes (calc : ResultCalculator) :
  reachable calc ->
  dom (candidates calc) = dom (candidateVotes calc) /\
  forall k c, candidates calc !! k = Some c ->
    exists vs, candidateVotes calc !! k = Some vs /\ score c = sumWeighted vs.
Proof.
  intros Hr. pose proof (reachable_scoresMatchVotes calc Hr) as Hinv. split.
  - apply set_eq. intros k. rewrite !elem_of_dom. specialize (Hinv k).
    destruct (candidates calc !! k), (candidateVotes calc !! k);
      try contradiction; split; intros [? ?]; try discriminate; eauto.
  - intros k c Hc. specialize (Hinv k). rewrite Hc in Hinv.
    destruct (candidateVotes calc !! k) as [vs|]; [eauto|contradiction].
Qed.

Lemma score_is_sum_of_recorded_votes_witness :
  dom (candidates Examples.twoCandidates) = dom (candidateVotes Examples.twoCandidates) /\
  forall k c, candidates Examples.twoCandidates !! k = Some c ->
    exists vs, candidateVotes Examples.twoCandidates !! k = Some vs /\
               score c = sumWeighted vs.
Proof.
  apply (score_is_sum_of_recorded_votes Examples.twoCandidates).
  apply reach_buckets, reach_registrations, reach_new.
Defined.

(** ** types: Calculate *)

(** X11. [Calculate] succeeds exactly on a calculator that is not yet
    calculated, and it is single-shot: the calculator it leaves is marked
    calculated, and on it [AddRegistrations], [AddBuckets] and [Calculate]
    all return an error and change nothing. *)
Theorem calculator_is_single_shot (calc : ResultCalculator) (order : range_order) :
  (calculated calc = true ->
     exists e, Calculate calc order = (None, Some e, calc)) /\
  (calculated calc = false ->
     exists res calc',
       Calculate calc order = (Some res, None, calc') /\
       calculated calc' = true /\
       (forall regs, exists e, AddRegistrations calc' regs = (Some e, calc')) /\
       (forall buckets, exists e, AddBuckets calc' buckets = (Some e, calc')) /\
       (forall order', exists e, Calculate calc' order' = (None, Some e, calc'))).
Proof.
  split; intros Hc.
  - unfold Calculate. rewrite Hc. eauto.
  - unfold Calculate. rewrite Hc.
    eexists. exists (finalize calc).
    split; [reflexivity|]. split; [reflexivity|].
    split; [|split].
    + intros regs. eexists. reflexivity.
    + intros buckets. eexists. reflexivity.
    + intros order'. eexists. reflexivity.
Qed.

Lemma fold_insert_lookup {V : Type} (f : string -> V) (l : list string) :
  forall (m : gmap string V) k,
    fold_left (fun (m : gmap string V) nm => <[nm := f nm]> m) l m !! k
    = if decide (k ∈ l) then Some (f k) else m !! k.
Proof.
  induction l as [|x l IH]; intros m k; cbn [fold_left].
  { destruct (decide (k ∈ [])) as [Hd|]; [inversion Hd|reflexivity]. }
  rewrite IH. destruct (decide (k ∈ l)) as [Hin|Hnin].
  - rewrite decide_True by (now right). reflexivity.
  - rewrite lookup_insert. destruct (decide (x = k)) as [->|Hne].
    + rewrite decide_True by (now left). reflexivity.
    + rewrite decide_False; [reflexivity|].
      intros Hk. apply elem_of_cons in Hk as [->|Hk]; contradiction.
Qed.

Lemma qualifier_keys calc order k :
  admissible order ->
  k ∈ filterAndSortCandidates calc order <->
  exists c, candidates calc !! k = Some c /\ types.candidateFilter calc c = false.
Proof.
  intros Hord. unfold filterAndSortCandidates. rewrite ranking_entries, map_map.
  rewrite list_elem_of_In, in_map_iff. split.
  - intros [[k' c] [Hk Hin]]. simpl in Hk. subst k'. apply list_elem_of_In in Hin.
    apply (rankedEntries_elem calc order (k, c) Hord) in Hin. eauto.
  - intros [c Hc]. exists (k, c). split; [reflexivity|].
    apply list_elem_of_In. now apply (rankedEntries_elem calc order (k, c) Hord).
Qed.

Lemma delegates_unfiltered calc calc' order res :
  admissible order ->
  Calculate calc order = (Some res, None, calc') ->
  forall c, c ∈ delegates res <->
    exists k, candidates calc !! k = Some c /\ types.candidateFilter calc c = false.
Proof.
  intros Hord. unfold Calculate. destruct (calculated calc); [discriminate|].
  intros [= <- _] c. simpl. rewrite delegates_entries by assumption.
  rewrite list_elem_of_In, in_map_iff. split.
  - intros [[k c'] [Hc Hin]]. simpl in Hc. subst c'. apply list_elem_of_In in Hin.
    apply (rankedEntries_elem calc order (k, c) Hord) in Hin. eauto.
  - intros [k Hc]. exists (k, c). split; [reflexivity|].
    apply list_elem_of_In. now apply (rankedEntries_elem calc order (k, c) Hord).
Qed.

(** X12. The result of [Calculate] holds exactly the candidates that the
    candidate filter does not drop, each once; its vote map has the vote
    list of each of them and no other key; mint time and totals are the
    calculator's. *)
Theorem Calculate_keeps_unfiltered_candidates (calc calc' : ResultCalculator)
    (order : range_order) (res : ElectionResult) :
  admissible order ->
  Calculate calc order = (Some res, None, calc') ->
  (forall c, c ∈ delegates res <->
     exists k, candidates calc !! k = Some c /\ types.candidateFilter calc c = false) /\
  length (delegates res)
  = length (List.filter (qualifies calc) (map_to_list (candidates calc))) /\
  (forall k, votes res !! k =
     match candidates calc !! k with
     | Some c => if types.candidateFilter calc c then None
                 else Some (default [] (candidateVotes calc !! k))
     | None => None
     end) /\
  resMintTime res = mintTime calc /\
  resTotalVotedStakes res = totalVotedStakes calc /\
  resTotalVotes res = totalVotes calc.
Proof.
  intros Hord. unfold Calculate. destruct (calculated calc); [discriminate|].
  intros [= <- _]. simpl. rewrite delegates_entries by assumption.
  split; [|split; [|split; [|auto]]].
  - intros c. rewrite list_elem_of_In, in_map_iff. split.
    + intros [[k c'] [Hc Hin]]. simpl in Hc. subst c'. apply list_elem_of_In in Hin.
      apply (rankedEntries_elem calc order (k, c) Hord) in Hin. eauto.
    + intros [k Hc]. exists (k, c). split; [reflexivity|].
      apply list_elem_of_In. now apply (rankedEntries_elem calc order (k, c) Hord).
  - rewrite length_map. unfold rankedEntries. rewrite Stable_perm.
    apply Permutation_length, filter_perm, Hord.
  - intros k.
    rewrite (fold_insert_lookup (fun nm => default [] (candidateVotes calc !! nm))).
    rewrite lookup_empty.
    destruct (decide (k ∈ filterAndSortCandidates calc order)) as [Hin|Hnin].
    + apply (qualifier_keys calc order k Hord) in Hin as (c & -> & ->). reflexivity.
    + destruct (candidates calc !! k) as [c|] eqn:Hc; [|reflexivity].
      destruct (types.candidateFilter calc c) eqn:Hf; [reflexivity|].
      exfalso. apply Hnin. apply (qualifier_keys calc order k Hord). eauto.
Qed.

Lemma Calculate_keeps_unfiltered_candidates_witness :
  (forall c, c ∈ delegates Examples.twoCandidatesResult <->
     exists k, candidates Examples.twoCandidates !! k = Some c /\
               types.candidateFilter Examples.twoCandidates c = false) /\
  length (delegates Examples.twoCandidatesResult)
  = length (List.filter (qualifies Examples.twoCandidates)
              (map_to_list (candidates Examples.twoCandidates))) /\
  (forall k, votes Examples.twoCandidatesResult !! k =
     match candidates Examples.twoCandidates !! k with
     | Some c => if types.candidateFilter Examples.twoCandidates c then None
                 else Some (default [] (candidateVotes Examples.twoCandidates !! k))
     | None => None
     end) /\
  resMintTime Examples.twoCandidatesResult = mintTime Examples.twoCandidates /\
  resTotalVotedStakes Examples.twoCandidatesResult
  = totalVotedStakes Examples.twoCandidates /\
  resTotalVotes Examples.twoCandidatesResult = totalVotes Examples.twoCandidates.
Proof.
  apply (Calculate_keeps_unfiltered_candidates Examples.twoCandidates
           (finalize Examples.twoCandidates) map_to_list Examples.twoCandidatesResult).
  - exact map_to_list_admissible.
  - vm_compute. reflexivity.
Defined.

(** X13. When the calculator is given the engine's [candidateFilter], every
    delegate of the result has at least [selfStakingThreshold]
    self-staking tokens and at least [scoreThreshold] score, and every
    registered candidate that has both is a delegate. *)
Theorem delegates_meet_thresholds (cfg : settings) (calc calc' : ResultCalculator)
    (order : range_order) (res : ElectionResult) :
  admissible order ->
  types.candidateFilter calc = committee.candidateFilter cfg ->
  Calculate calc order = (Some res, None, calc') ->
  forall c, c ∈ delegates res <->
    (exists k, candidates calc !! k = Some c) /\
    selfStakingThreshold cfg <= selfStakingTokens c /\
    scoreThreshold cfg <= score c.
Proof.
  intros Hord Hf Hrun c.
  rewrite (delegates_unfiltered calc calc' order res Hord Hrun), Hf. unfold committee.candidateFilter.
  rewrite !Z.gtb_ltb. split.
  - intros (k & Hc & Hq). apply orb_false_iff in Hq as [H1 H2].
    apply Z.ltb_ge in H1, H2. eauto.
  - intros ((k & Hc) & H1 & H2). exists k. split; [exact Hc|].
    apply orb_false_iff. split; apply Z.ltb_ge; assumption.
Qed.


Lemma sameCandidates_refl calc : sameCandidates calc calc.
Proof. intros k. destruct (candidates calc !! k); auto. Qed.

Lemma sameCandidates_trans c1 c2 c3 :
  sameCandidates c1 c2 -> sameCandidates c2 c3 -> sameCandidates c1 c3.
Proof.
  intros H12 H23 k. specialize (H12 k). specialize (H23 k).
  destruct (candidates c1 !! k), (candidates c2 !! k), (candidates c3 !! k);
    try contradiction; auto.
  destruct H12 as (? & ? & ? & ? & ?), H23 as (? & ? & ? & ? & ?).
  repeat split; congruence.
Qed.

Lemma with_candidate_sameCandidates calc k c c' :
  candidates calc !! k = Some c ->
  name c' = name c -> address c' = address c ->
  operatorAddress c' = operatorAddress c -> rewardAddress c' = rewardAddress c ->
  selfStakingWeight c' = selfStakingWeight c ->
  sameCandidates calc (with_candidate calc k c').
Proof.
  intros Hc ? ? ? ? ? k'. simpl. rewrite lookup_insert.
  case_decide as Hd; [subst k'; rewrite Hc; auto|].
  destruct (candidates calc !! k'); auto.
Qed.

Lemma addBucket_sameCandidates calc b :
  match addBucket calc b with
  | inl (_, calc') => sameCandidates calc calc'
  | inr calc' => sameCandidates calc calc'
  end.
Proof.
  unfold addBucket. destruct (bucketFilter calc b); [apply sameCandidates_refl|].
  destruct (candidate b) as [nm|]; [|apply sameCandidates_refl].
  destruct (_ =? 0); [apply sameCandidates_refl|].
  destruct (candidates calc !! hex nm) as [cand|] eqn:Hc;
    [|intros k; simpl; destruct (candidates calc !! k); auto].
  destruct (selfVote cand b _ _) as [e|[[amt sc] cand1]] eqn:Hs;
    [apply sameCandidates_refl|].
  assert (Hid : name cand1 = name cand /\ address cand1 = address cand /\
                operatorAddress cand1 = operatorAddress cand /\
                rewardAddress cand1 = rewardAddress cand /\
                selfStakingWeight cand1 = selfStakingWeight cand).
  { revert Hs. unfold selfVote, addSelfStakingTokens.
    destruct (bytes_Equal _ _); [|intros [= _ _ <-]; auto].
    destruct (_ <? 0); [discriminate|]. intros [= _ _ <-]. simpl. auto. }
  destruct Hid as (H1 & H2 & H3 & H4 & H5).
  pose proof (with_candidate_sameCandidates calc (hex nm) cand cand1 Hc H1 H2 H3 H4 H5)
    as Hsame.
  destruct (NewVote b sc); [exact Hsame|].
  unfold addScore. destruct (sc <? 0); [exact Hsame|].
  intros k. simpl. rewrite insert_insert_eq, lookup_insert.
  case_decide as Hd; [subst k; rewrite Hc; simpl; auto|].
  destruct (candidates calc !! k); auto.
Qed.

(** X14. [AddBuckets] never adds or removes a candidate and never changes
    the name, the addresses or the weight of one, whether it returns nil
    or an error: it can only change scores and self-staking tokens. *)
Theorem AddBuckets_keeps_candidates (calc : ResultCalculator) (buckets : list Bucket) :
  sameCandidates calc (AddBuckets calc buckets).2.
Proof.
  unfold AddBuckets. destruct (calculated calc); [apply sameCandidates_refl|].
  revert calc. induction buckets as [|b rest IH]; intros calc; simpl.
  { apply sameCandidates_refl. }
  pose proof (addBucket_sameCandidates calc b) as Hb.
  destruct (addBucket calc b) as [[e calc']|calc']; [exact Hb|].
  eapply sameCandidates_trans; [exact Hb|apply IH].
Qed.

(** ** committee: retry *)

Section RetryFacts.
Context `{Backend}.
Variable World : Type.
Variable fetch : World -> Z -> World * option ElectionResult * option error.


End RetryFacts.


(** ** committee: more on the ordered commit *)

Section CommitFacts.
Context `{Backend}.




(** X17. After [storeInBatch] has stored at least one height,
    [LatestHeight] is the last stored height and [nextHeight] is one
    interval above it (in 64-bit arithmetic). *)
Theorem LatestHeight_after_storeInBatch (ec ec' : committee)
    (results : gmap Z (option ElectionResult)) (errs : gmap Z (option error))
    (tipTime : Time) (out : outcome) (stored : list Z) :
  stored <> [] ->
  storeInBatch ec results errs tipTime = (out, ec', stored) ->
  last stored = Some (LatestHeight ec') /\
  nextHeight ec' = wrap64 (LatestHeight ec' + interval ec).
Proof.
  unfold storeInBatch. intros Hne Hrun.
  destruct (storeLoop ec results errs (batchHeights results)) as [[o ec1] st] eqn:Hloop.
  pose proof (storeLoop_facts _ _ _ _ _ _ _ Hloop)
    as (_ & _ & _ & _ & _ & Hh & _ & Hnext).
  assert (Hst : st = stored) by (destruct o; now injection Hrun).
  assert (Hec : heightMgr ec' = heightMgr ec1 /\ nextHeight ec' = nextHeight ec1)
    by (destruct o; injection Hrun as _ <- _; auto).
  destruct Hec as [Hm Hn]. subst st. unfold LatestHeight.
  rewrite Hm, Hh, Hn, Hnext.
  destruct (last stored) as [h|] eqn:Hlast.
  - apply last_Some in Hlast as [l' ->].
    rewrite app_assoc, last_snoc. split; reflexivity.
  - apply last_None in Hlast. contradiction.
Qed.
End CommitFacts.


Lemma LatestHeight_after_storeInBatch_witness :
  last Examples.batchRun.2 = Some (LatestHeight Examples.batchRun.1.2) /\
  nextHeight Examples.batchRun.1.2
  = wrap64 (LatestHeight Examples.batchRun.1.2 + interval (Examples.engine 3)).
Proof.
  apply (@LatestHeight_after_storeInBatch Examples.memBackend (Examples.engine 3)
           Examples.batchRun.1.2 Examples.batchResults Examples.batchErrs
           (1030 * 1000000000) Examples.batchRun.1.1 Examples.batchRun.2).
  - vm_compute. discriminate.
  - vm_compute. reflexivity.
Defined.

Section ZeroRetries.
Context `{Backend}.
Variable World : Type.
Variable fetch : World -> Z -> World * option ElectionResult * option error.


(** X18. With a retry limit of 0 every fetched height carries the nil
    result and the nil error, and [storeInBatch] on such a batch, if it
    is not empty, passes the error test and dereferences the nil result
    at the lowest height: nothing is stored and nothing changes. *)
Theorem zero_retries_make_storeInBatch_panic (ec : committee) (w : World)
    (hs : list Z) (tipTime : Time) :
  retryLimit ec = 0 ->
  hs <> [] ->
  storeInBatch ec (fetchedResults World fetch ec w hs)
    (fetchedErrs World fetch ec w hs) tipTime
  = (Panic, ec, []).
Proof.
  intros Hl Hne.
  assert (Hres : forall h, resultAt (fetchedResults World fetch ec w hs) h = None).
  { intros h. unfold resultAt, fetchedResults.
    destruct (list_to_map _ !! h) as [v|] eqn:E; [|reflexivity].
    apply elem_of_list_to_map_2, list_elem_of_In, in_map_iff in E as (h' & Hv & _).
    unfold retryFetchResultByHeight in Hv. rewrite Hl in Hv. simpl in Hv.
    now injection Hv as _ <-. }
  assert (Herr : forall h, errAt (fetchedErrs World fetch ec w hs) h = None).
  { intros h. unfold errAt, fetchedErrs.
    destruct (list_to_map _ !! h) as [v|] eqn:E; [|reflexivity].
    apply elem_of_list_to_map_2, list_elem_of_In, in_map_iff in E as (h' & Hv & _).
    unfold retryFetchResultByHeight in Hv. rewrite Hl in Hv. simpl in Hv.
    now injection Hv as _ <-. }
  unfold storeInBatch.
  destruct (batchHeights (fetchedResults World fetch ec w hs)) as [|h rest] eqn:Hb.
  - exfalso. destruct hs as [|h0 hs]; [contradiction|].
    assert (Hin : h0 ∈ batchHeights (fetchedResults World fetch ec w (h0 :: hs))).
    { unfold batchHeights, sortedHeights. rewrite merge_sort_Permutation.
      apply list_elem_of_fmap. unfold fetchedResults. cbn [map].
      exists (h0, (retryFetchResultByHeight World fetch ec w h0).1.1.2).
      split; [reflexivity|]. apply elem_of_map_to_list. simpl.
      apply lookup_insert_eq. }
    rewrite Hb in Hin. inversion Hin.
  - simpl. rewrite Herr, Hres. reflexivity.
Qed.
End ZeroRetries.

Lemma zero_retries_make_storeInBatch_panic_witness :
  @storeInBatch Examples.memBackend (Examples.engine 0)
    (fetchedResults nat Examples.failingFetch (Examples.engine 0) 0%nat [100; 110])
    (fetchedErrs nat Examples.failingFetch (Examples.engine 0) 0%nat [100; 110])
    (1030 * 1000000000)
  = (Panic, Examples.engine 0, []).
Proof.
  apply (@zero_retries_make_storeInBatch_panic Examples.memBackend nat
           Examples.failingFetch (Examples.engine 0) 0%nat [100; 110]
           (1030 * 1000000000)).
  - reflexivity.
  - discriminate.
Defined.

(** ** committee: paging through votes and candidates *)

Section PagingFacts.
Variable World : Type.
Variable Item : Type.
Variable page : World -> Z -> Z -> Z -> World * (Z * list Item * option error).

(** X19. With a page size of 0 no page is short, so the loops of
    [fetchVotesByHeight] and [fetchCandidatesByHeight] end only on an
    error: against a client that never reports one they do not return,
    however many iterations they are given. *)
Theorem zero_page_size_never_returns (cfg : settings) (fuel : nat) (w : World)
    (height : Z) :
  paginationSize cfg = 0 ->
  (forall w h i n, (page w h i n).2.2 = None) ->
  (fetchVotesByHeight World Item page fuel cfg w height).2 = None /\
  (fetchCandidatesByHeight World Item page fuel cfg w height).2 = None.
Proof.
  intros Hp Hok. unfold fetchVotesByHeight, fetchCandidatesByHeight. rewrite Hp.
  assert (Hloop : forall fuel w i all,
            (fetchPages World Item page fuel w height i 0 all).2 = None).
  { clear fuel w. induction fuel as [|fuel IH]; intros w i all; simpl; [reflexivity|].
    pose proof (Hok w height i 0) as He.
    destruct (page w height i 0) as [w1 [[i1 items] e1]]. simpl in He. subst e1.
    destruct (Z.of_nat (length items) <? 0) eqn:E; [|apply IH].
    apply Z.ltb_lt in E. lia. }
  split; apply Hloop.
Qed.


Lemma fetchPages_collects (data : list Item) (first pageSize : Z) (w : World)
    (height : Z) :
  serves World Item page data first -> 0 < pageSize ->
  forall (fuel : nat) (i : Z) (all : list Item),
    first <= i ->
    (length (drop (Z.to_nat (i - first)) data) < fuel)%nat ->
    fetchPages World Item page fuel w height i pageSize all
    = (w, Some (inr (all ++ drop (Z.to_nat (i - first)) data))).
Proof.
  intros Hs Hp. induction fuel as [|fuel IH]; intros i all Hi Hlen; [lia|].
  simpl. rewrite Hs.
  set (rest := drop (Z.to_nat (i - first)) data) in *.
  destruct (Z.of_nat (length (take (Z.to_nat pageSize) rest)) <? pageSize) eqn:E.
  - apply Z.ltb_lt in E. rewrite length_take in E.
    rewrite take_ge by lia. reflexivity.
  - apply Z.ltb_ge in E. rewrite length_take in E.
    assert (Hfull : length (take (Z.to_nat pageSize) rest) = Z.to_nat pageSize)
      by (rewrite length_take; lia).
    rewrite Hfull, Z2Nat.id by lia.
    rewrite IH.
    + replace (Z.to_nat (i + pageSize - first))
        with (Z.to_nat (i - first) + Z.to_nat pageSize)%nat by lia.
      rewrite <- drop_drop. fold rest.
      rewrite <- app_assoc, take_drop. reflexivity.
    + lia.
    + replace (Z.to_nat (i + pageSize - first))
        with (Z.to_nat (i - first) + Z.to_nat pageSize)%nat by lia.
      rewrite <- drop_drop. fold rest. rewrite length_drop. lia.
Qed.

(** X20. With a positive page size, and against a client that serves a
    list page by page, [fetchVotesByHeight] (cursor from 0) and
    [fetchCandidatesByHeight] (cursor from 1) return the whole list, each
    item once and in order, once they are given more iterations than the
    list has items. *)
Theorem paging_collects_everything (cfg : settings) (fuel : nat) (w : World)
    (height : Z) (data : list Item) :
  0 < paginationSize cfg ->
  (length data < fuel)%nat ->
  (serves World Item page data 0 ->
   fetchVotesByHeight World Item page fuel cfg w height = (w, Some (inr data))) /\
  (serves World Item page data 1 ->
   fetchCandidatesByHeight World Item page fuel cfg w height = (w, Some (inr data))).
Proof.
  intros Hp Hf. unfold fetchVotesByHeight, fetchCandidatesByHeight.
  split; intros Hs.
  - rewrite (fetchPages_collects data 0 (paginationSize cfg) w height Hs Hp fuel 0 []);
      [reflexivity|lia|rewrite length_drop; lia].
  - rewrite (fetchPages_collects data 1 (paginationSize cfg) w height Hs Hp fuel 1 []);
      [reflexivity|lia|rewrite length_drop; lia].
Qed.
End PagingFacts.

Lemma zero_page_size_never_returns_witness :
  (fetchVotesByHeight nat Z (Examples.servePage [1; 2; 3] 0) 5
     (Examples.pageSettings 0) 0%nat 100).2 = None /\
  (fetchCandidatesByHeight nat Z (Examples.servePage [1; 2; 3] 0) 5
     (Examples.pageSettings 0) 0%nat 100).2 = None.
Proof.
  apply (zero_page_size_never_returns nat Z (Examples.servePage [1; 2; 3] 0)
           (Examples.pageSettings 0) 5 0%nat 100).
  - reflexivity.
  - intros w h i n. reflexivity.
Defined.

Lemma paging_collects_everything_witness :
  fetchVotesByHeight nat Z (Examples.servePage [1; 2; 3; 4] 0) 5
    (Examples.pageSettings 2) 0%nat 100 = (0%nat, Some (inr [1; 2; 3; 4])) /\
  fetchCandidatesByHeight nat Z (Examples.servePage [1; 2; 3; 4] 1) 5
    (Examples.pageSettings 2) 0%nat 100 = (0%nat, Some (inr [1; 2; 3; 4])).
Proof.
  split.
  - apply (paging_collects_everything nat Z (Examples.servePage [1; 2; 3; 4] 0)
             (Examples.pageSettings 2) 5 0%nat 100 [1; 2; 3; 4]);
      [simpl; lia|simpl; lia|]. intros w h i n. reflexivity.
  - apply (paging_collects_everything nat Z (Examples.servePage [1; 2; 3; 4] 1)
             (Examples.pageSettings 2) 5 0%nat 100 [1; 2; 3; 4]);
      [simpl; lia|simpl; lia|]. intros w h i n. reflexivity.
Defined.

Lemma delegates_meet_thresholds_witness :
  NewCandidate Examples.regA 100 0 ∈ [NewCandidate Examples.regA 100 0] <->
  (exists k, candidates Examples.underThresholds !! k
             = Some (NewCandidate Examples.regA 100 0)) /\
  selfStakingThreshold (Examples.pageSettings 2)
  <= selfStakingTokens (NewCandidate Examples.regA 100 0) /\
  scoreThreshold (Examples.pageSettings 2) <= score (NewCandidate Examples.regA 100 0).
Proof.
  apply (delegates_meet_thresholds (Examples.pageSettings 2) Examples.underThresholds
           (finalize Examples.underThresholds) map_to_list
           {| resMintTime := Examples.mint;
              delegates := [NewCandidate Examples.regA 100 0];
              votes := <["aa"%string :=
                           [{| bucket := Examples.bucketFor [x05] [xaa] 0 100;
                               weighted := 100 |}]]> ∅;
              resTotalVotedStakes := 110; resTotalVotes := 110 |}).
  - exact map_to_list_admissible.
  - reflexivity.
  - vm_compute. reflexivity.
Defined.

(** ** committee: queries *)

Section QueryFacts.
Context `{Reader}.

(** X21. [resultByHeight] looks a height up only if it is an epoch height,
    [startHeight + k * interval]: for a height below [startHeight], and
    with a positive interval for every height that is not of that form,
    it returns an error and leaves cache and store alone; with an
    interval of 0 a height from [startHeight] on ends in the panic of a
    division by zero. *)
Theorem resultByHeight_epoch_heights_only (ec : committee) (height : Z) :
  (height < startHeight ec ->
     exists e, resultByHeight ec height = (Answer None (Some e), ec)) /\
  (0 < interval ec ->
     ~ (exists k, 0 <= k /\ height = startHeight ec + k * interval ec) ->
     exists e, resultByHeight ec height = (Answer None (Some e), ec)) /\
  (interval ec = 0 -> startHeight ec <= height ->
     resultByHeight ec height = (DivideByZero, ec)).
Proof.
  unfold resultByHeight. split; [|split].
  - intros Hlt. apply Z.ltb_lt in Hlt. rewrite Hlt. eauto.
  - intros Hi Hk. destruct (height <? startHeight ec) eqn:E; [eauto|].
    apply Z.ltb_ge in E.
    destruct (interval ec =? 0) eqn:E0; [apply Z.eqb_eq in E0; lia|].
    destruct ((height - startHeight ec) mod interval ec =? 0) eqn:Em; [|simpl; eauto].
    exfalso. apply Hk. apply Z.eqb_eq in Em.
    exists ((height - startHeight ec) / interval ec). split.
    + apply Z.div_pos; lia.
    + pose proof (Z.div_mod (height - startHeight ec) (interval ec)). lia.
  - intros Hi Hge. destruct (height <? startHeight ec) eqn:E.
    + apply Z.ltb_lt in E. lia.
    + rewrite Hi. reflexivity.
Qed.

(** X22. What [storeResult] has stored under an epoch height is what
    [resultByHeight] returns for it, from the cache, provided the cache
    returns under a key what was last inserted under it. *)
Theorem stored_result_is_served (ec ec' : committee) (height : Z)
    (result : ElectionResult) :
  (forall c h r, (cache_get (cache_insert c h r) h).1 = Some r) ->
  storeResult ec height result = (None, ec') ->
  startHeight ec <= height ->
  interval ec <> 0 ->
  (height - startHeight ec) mod interval ec = 0 ->
  (resultByHeight ec' height).1 = Answer (Some result) None.
Proof.
  intros Hcache Hstore Hge Hi Hmod.
  assert (Hec : cache ec' = cache_insert (cache ec) height result /\
                startHeight ec' = startHeight ec /\ interval ec' = interval ec).
  { revert Hstore. unfold storeResult. destruct (Serialize result); [discriminate|].
    destruct (db_Put _ _ _) as [[e1|] d]; [discriminate|]. simpl.
    destruct (db_Put _ _ _) as [[e2|] d']; [discriminate|]. simpl.
    destruct (hm_add _ _ _); [discriminate|]. intros [= <-]. simpl. auto. }
  destruct Hec as (Hc & Hs & Hint).
  unfold resultByHeight. rewrite Hs, Hint, Hc.
  destruct (height <? startHeight ec) eqn:E; [apply Z.ltb_lt in E; lia|].
  destruct (interval ec =? 0) eqn:E0; [apply Z.eqb_eq in E0; contradiction|].
  rewrite Hmod. simpl.
  pose proof (Hcache (cache ec) height result) as Hget.
  destruct (cache_get (cache_insert (cache ec) height result) height) as [[r|] c];
    simpl in Hget; [|discriminate].
  injection Hget as ->. reflexivity.
Qed.
End QueryFacts.

Lemma stored_result_is_served_witness :
  (@resultByHeight Examples.memBackend Examples.memReader
     (@storeResult Examples.memBackend (Examples.engine 3) 110
        (Examples.resultAtTime 1010)).2 110).1
  = Answer (Some (Examples.resultAtTime 1010)) None.
Proof.
  apply (@stored_result_is_served Examples.memBackend Examples.memReader
           (Examples.engine 3)
           (@storeResult Examples.memBackend (Examples.engine 3) 110
              (Examples.resultAtTime 1010)).2 110 (Examples.resultAtTime 1010)).
  - intros c h r. simpl. rewrite Z.eqb_refl. reflexivity.
  - reflexivity.
  - simpl. lia.
  - simpl. lia.
  - reflexivity.
Defined.

(** ** committee: the heights of a batch *)

Lemma batchLoop_running (bound step : Z) (fuel : nat) : forall next,
  0 <= step -> 0 <= next -> bound < 2 ^ 64 ->
  next + (Z.of_nat fuel - 1) * step <= bound ->
  batchLoop fuel next bound step = None.
Proof.
  induction fuel as [|fuel IH]; intros next Hs Hn Hb Hle; [reflexivity|].
  simpl. destruct (next <=? bound) eqn:E; [|apply Z.leb_gt in E; nia].
  destruct fuel as [|fuel]; [reflexivity|].
  rewrite IH; [reflexivity|lia| | lia |].
  - unfold wrap64. apply Z.mod_pos_bound. lia.
  - unfold wrap64. rewrite Z.mod_small by nia. nia.
Qed.

Lemma batchLoop_progression (bound step : Z) (fuel : nat) : forall next,
  0 < step -> 0 <= next -> bound + step < 2 ^ 64 ->
  (Z.to_nat ((bound - next) / step + 1) < fuel)%nat ->
  batchLoop fuel next bound step
  = Some (map (fun i : nat => next + Z.of_nat i * step)
            (seq 0 (Z.to_nat ((bound - next) / step + 1)))).
Proof.
  induction fuel as [|fuel IH]; intros next Hs Hn Hb Hf; [lia|].
  simpl. destruct (next <=? bound) eqn:E.
  - apply Z.leb_le in E.
    assert (Hq : 0 <= (bound - next) / step) by (apply Z.div_pos; lia).
    assert (Hw : wrap64 (next + step) = next + step)
      by (unfold wrap64; apply Z.mod_small; lia).
    assert (Hq' : (bound - (next + step)) / step = (bound - next) / step - 1).
    { replace (bound - (next + step)) with (bound - next + (-1) * step) by lia.
      rewrite Z.div_add by lia. lia. }
    rewrite Hw, IH by (rewrite ?Hq'; lia). rewrite Hq'.
    replace ((bound - next) / step - 1 + 1) with ((bound - next) / step) by lia.
    replace (Z.to_nat ((bound - next) / step + 1))
      with (S (Z.to_nat ((bound - next) / step))) by lia.
    simpl. rewrite <- seq_shift, map_map. f_equal. f_equal; [lia|].
    apply map_ext. intros i. lia.
  - apply Z.leb_gt in E.
    assert (Hq : (bound - next) / step + 1 <= 0).
    { assert ((bound - next) / step < 0) by (apply Z.div_lt_upper_bound; lia). lia. }
    replace (Z.to_nat ((bound - next) / step + 1)) with 0%nat by lia. reflexivity.
Qed.

Section BatchFacts.
Context `{Backend}.

(** X23. [fetchInBatch] raises [currentHeight] to the tip.  When that is at
    least 12, the interval is positive and the sum of bound and interval
    stays below 2^64, the loop ends and starts a fetch for exactly the
    heights [nextHeight], [nextHeight + interval], ... up to
    [currentHeight - 12]: none at all if [nextHeight] is above it. *)
Theorem fetchInBatch_heights_regular (ec : committee) (tipHeight : Z) (fuel : nat) :
  0 < interval ec ->
  0 <= nextHeight ec ->
  12 <= Z.max (currentHeight ec) tipHeight ->
  Z.max (currentHeight ec) tipHeight - 12 + interval ec < 2 ^ 64 ->
  (Z.to_nat ((Z.max (currentHeight ec) tipHeight - 12 - nextHeight ec) / interval ec + 1)
   < fuel)%nat ->
  exists ec',
    fetchInBatch_heights fuel ec tipHeight
    = (ec', Some (map (fun i : nat => nextHeight ec + Z.of_nat i * interval ec)
                   (seq 0 (Z.to_nat ((Z.max (currentHeight ec) tipHeight - 12
                                      - nextHeight ec) / interval ec + 1))))) /\
    currentHeight ec' = Z.max (currentHeight ec) tipHeight /\
    nextHeight ec' = nextHeight ec.
Proof.
  intros Hi Hn Hc Hb Hf. unfold fetchInBatch_heights.
  destruct (currentHeight ec <? tipHeight) eqn:E.
  - apply Z.ltb_lt in E. replace (Z.max (currentHeight ec) tipHeight) with tipHeight in * by lia.
    exists (set_currentHeight ec tipHeight). split; [|split; reflexivity]. simpl.
    assert (Hw : wrap64 (tipHeight - 12) = tipHeight - 12)
      by (unfold wrap64; apply Z.mod_small; lia).
    rewrite Hw. f_equal. apply batchLoop_progression; lia.
  - apply Z.ltb_ge in E.
    replace (Z.max (currentHeight ec) tipHeight) with (currentHeight ec) in * by lia.
    exists ec. split; [|split; reflexivity].
    assert (Hw : wrap64 (currentHeight ec - 12) = currentHeight ec - 12)
      by (unfold wrap64; apply Z.mod_small; lia).
    rewrite Hw. f_equal. apply batchLoop_progression; lia.
Qed.

(** X24. When the tip (and [currentHeight]) is below 12, the bound
    [currentHeight - 12] wraps around to just under 2^64, and the loop of
    [fetchInBatch] is still starting fetches after any number of
    iterations that keeps the counter under that bound; with an interval
    of 0 and [nextHeight] not above the bound it never ends. *)
Theorem fetchInBatch_heights_runaway (ec : committee) (tipHeight : Z) (fuel : nat) :
  0 <= interval ec ->
  0 <= nextHeight ec ->
  0 <= Z.max (currentHeight ec) tipHeight < 2 ^ 64 ->
  (Z.max (currentHeight ec) tipHeight < 12 /\
   nextHeight ec + (Z.of_nat fuel - 1) * interval ec
   <= 2 ^ 64 - 12 + Z.max (currentHeight ec) tipHeight) \/
  (12 <= Z.max (currentHeight ec) tipHeight /\ interval ec = 0 /\
   nextHeight ec <= Z.max (currentHeight ec) tipHeight - 12) ->
  (fetchInBatch_heights fuel ec tipHeight).2 = None.
Proof.
  intros Hi Hn Hc Hcase. unfold fetchInBatch_heights.
  set (ec' := if currentHeight ec <? tipHeight then set_currentHeight ec tipHeight else ec).
  assert (Hcur : currentHeight ec' = Z.max (currentHeight ec) tipHeight).
  { unfold ec'. destruct (currentHeight ec <? tipHeight) eqn:E; simpl.
    - apply Z.ltb_lt in E. lia.
    - apply Z.ltb_ge in E. lia. }
  assert (Hnext : nextHeight ec' = nextHeight ec /\ interval ec' = interval ec).
  { unfold ec'. destruct (currentHeight ec <? tipHeight); auto. }
  destruct Hnext as [Hnx Hint]. simpl. rewrite Hcur, Hnx, Hint.
  set (cur := Z.max (currentHeight ec) tipHeight) in *.
  destruct Hcase as [[Hlow Hle]|(Hhigh & Hz & Hle)].
  - assert (Hw : wrap64 (cur - 12) = 2 ^ 64 - 12 + cur).
    { unfold wrap64. replace (cur - 12) with (2 ^ 64 - 12 + cur + (-1) * 2 ^ 64) by lia.
      rewrite Z.mod_add by lia. apply Z.mod_small. lia. }
    rewrite Hw. apply batchLoop_running; lia.
  - assert (Hw : wrap64 (cur - 12) = cur - 12)
      by (unfold wrap64; apply Z.mod_small; lia).
    rewrite Hw, Hz. apply batchLoop_running; lia.
Qed.
End BatchFacts.

Lemma fetchInBatch_heights_regular_witness :
  exists ec',
    @fetchInBatch_heights Examples.memBackend 10 (Examples.engine 3) 142
    = (ec', Some (map (fun i : nat => nextHeight (Examples.engine 3)
                                      + Z.of_nat i * interval (Examples.engine 3))
                   (seq 0 (Z.to_nat ((Z.max (currentHeight (Examples.engine 3)) 142 - 12
                                      - nextHeight (Examples.engine 3))
                                     / interval (Examples.engine 3) + 1))))) /\
    currentHeight ec' = Z.max (currentHeight (Examples.engine 3)) 142 /\
    nextHeight ec' = nextHeight (Examples.engine 3).
Proof.
  apply (@fetchInBatch_heights_regular Examples.memBackend (Examples.engine 3) 142 10);
    vm_compute; first [reflexivity | discriminate | lia].
Defined.

Example fetchInBatch_heights_scenario :
  (@fetchInBatch_heights Examples.memBackend 10 (Examples.engine 3) 142).2
  = Some [100; 110; 120; 130].
Proof. reflexivity. Qed.

Lemma fetchInBatch_heights_runaway_witness :
  (@fetchInBatch_heights Examples.memBackend 1000 (Examples.engine 3) 5).2 = None.
Proof.
  apply (@fetchInBatch_heights_runaway Examples.memBackend (Examples.engine 3) 5 1000).
  - vm_compute. discriminate.
  - vm_compute. discriminate.
  - vm_compute. split; [discriminate|reflexivity].
  - left. vm_compute. split; [reflexivity|discriminate].
Defined.
